(** * bike-tracker: the position server and its connection registry

    A shallow embedding of [main.go] (the variant that persists positions in
    SQLite) and of the broadcast-only variant, whose [broadcastPosition],
    [handleWebSocket] and [handleConfig] are the same text.

    The server's global variables ([connections], [db]) become the fields of
    a record that every handler takes and returns; what the handlers cannot
    decide themselves (the clock, whether a peer's transport still works,
    whether SQLite answers) is read from an environment record. *)

From Stdlib Require Import ZArith PrimFloat FloatClass Uint63 Ascii.
From stdpp Require Import gmap strings list sorting.

Set Warnings "-inexact-float,-register-all".
Open Scope Z_scope.

(** ** Data *)

Abbreviation float64 := float (only parsing).
Abbreviation int64 := Z (only parsing).

(** [type GPSPosition struct] *)
Record GPSPosition := {
  Latitude : float64;
  Longitude : float64;
  Timestamp : int64
}.

(** [type Config struct] *)
Record Config := { MapStyle : string }.

(** A [*websocket.Conn]: only the identity of the pointer matters. *)
Abbreviation Conn := positive (only parsing).

(** A number as [strconv] reads its text: [ParseFloat(s, 64)] and
    [ParseInt(s, 10, 64)], [None] where the call returns an error. *)
Record Number := {
  ParseFloat : option float64;
  ParseInt : option Z
}.

(** A value as SQLite stores it in a column. A text comes with what
    [strconv] makes of it, since this is how [database/sql] turns it into a
    number. *)
Inductive Cell :=
| Integer (z : Z)
| Real (f : float64)
| Text (s : string) (n : Number).

(** A row of the table [positions] created by [initDB]. [created_at] is the
    [CURRENT_TIMESTAMP] text ("YYYY-MM-DD HH:MM:SS", UTC), kept as the
    second it denotes: the text compares the way the seconds do. *)
Record Row := {
  id : Z;
  latitude : Cell;
  longitude : Cell;
  timestamp : Cell;
  created_at : Z
}.

(** The lines the handlers print with [log.Printf]. *)
Inductive LogLine :=
| UpgradeFailed
| ClientConnected (c : Conn)
| ReadFailed
| WriteFailed
| SaveFailed
| Received (lat lng : float64)
| QueryHistoryFailed
| ScanRowFailed
| QueryLastFailed.

(** What the server does to the outside world, newest first. *)
Inductive Effect :=
| Log (l : LogLine)
| Insert (r : Row)                      (* a row written by [db.Exec] *)
| Write (c : Conn) (p : GPSPosition)    (* a frame accepted by c's transport *)
| Close (c : Conn).                     (* [conn.Close()] *)

(** The process state: the registry [connections], the transports the
    server has closed, the table, and the effects so far. *)
Record Server := {
  connections : gmap positive bool;
  closed : gset positive;
  positions : list Row;
  trace : list Effect
}.

(** What a handler reads from outside during one call. *)
Record Env := {
  Now : Z;                    (* [time.Now().Unix()] *)
  CURRENT_TIMESTAMP : Z;      (* SQLite's clock, in seconds *)
  dbDown : bool;              (* [db.Exec] / [db.Query] return an error *)
  peerGone : gset positive;   (* transports on which a write fails *)
  MAP_STYLE : string          (* [os.Getenv("MAP_STYLE")] *)
}.

Definition emit (e : Effect) (st : Server) : Server :=
  {| connections := connections st; closed := closed st;
     positions := positions st; trace := e :: trace st |}.

Definition logPrintf (l : LogLine) (st : Server) : Server := emit (Log l) st.

(** The positions written to [c] so far, newest first. *)
Definition delivered (st : Server) (c : Conn) : list GPSPosition :=
  omap (λ e, match e with
             | Write c' p => if decide (c' = c) then Some p else None
             | _ => None
             end) (trace st).

(** ** The connection registry *)

(** [connections[conn] = true] *)
Definition register (c : Conn) (st : Server) : Server :=
  {| connections := <[c := true]> (connections st); closed := closed st;
     positions := positions st; trace := trace st |}.

(** [delete(connections, conn)] *)
Definition deregister (c : Conn) (st : Server) : Server :=
  {| connections := delete c (connections st); closed := closed st;
     positions := positions st; trace := trace st |}.

(** [conn.Close()]; closing twice is an error the code ignores. *)
Definition connClose (c : Conn) (st : Server) : Server :=
  emit (Close c)
    {| connections := connections st; closed := {[c]} ∪ closed st;
       positions := positions st; trace := trace st |}.

Definition registered (st : Server) (c : Conn) : Prop :=
  c ∈ dom (connections st).

(** A write succeeds when the server has not closed the transport and the
    peer is still there. *)
Definition writable (env : Env) (st : Server) (c : Conn) : Prop :=
  (c ∉ closed st) ∧ (c ∉ peerGone env).

(** [conn.WriteJSON(position)]: the new state and whether [err == nil]. *)
Definition WriteJSON (env : Env) (c : Conn) (position : GPSPosition)
    (st : Server) : Server * bool :=
  if decide ((c ∉ closed st) ∧ (c ∉ peerGone env))
  then (emit (Write c position) st, true)
  else (st, false).

(** ** The broadcast dispatcher *)

(** The body of the loop in [broadcastPosition]. *)
Definition visit (env : Env) (position : GPSPosition) (c : Conn)
    (st : Server) : Server :=
  let '(st1, ok) := WriteJSON env c position st in
  if ok then st1
  else deregister c (connClose c (logPrintf WriteFailed st1)).

(** [for conn := range connections]: the keys come in the order [keys]; a
    key deleted before the loop reaches it is not produced. *)
Fixpoint range (keys : list Conn) (body : Conn → Server → Server)
    (st : Server) : Server :=
  match keys with
  | [] => st
  | c :: keys' =>
      range keys' body
        (if decide (c ∈ dom (connections st)) then body c st else st)
  end.

Definition broadcastPosition_in (keys : list Conn) (env : Env)
    (position : GPSPosition) (st : Server) : Server :=
  range keys (visit env position) st.

(** [broadcastPosition]. Go leaves the order of a map iteration open; the
    order of [elements] stands for it, and [broadcast_order] below shows
    that no connection's fate depends on the choice. *)
Definition broadcastPosition (env : Env) (position : GPSPosition)
    (st : Server) : Server :=
  broadcastPosition_in (elements (dom (connections st))) env position st.

(** A run of broadcasts, one after the other. *)
Definition broadcasts (calls : list (Env * GPSPosition)) (st : Server)
    : Server :=
  foldl (λ s call, broadcastPosition call.1 call.2 s) st calls.

(** ** The position store *)

(** The float is a number: neither an infinity nor a NaN. *)
Definition finite (f : float64) : bool :=
  match classify f with
  | PInf | NInf | NaN => false
  | _ => true
  end.

(** A [float64] as it comes back from a [REAL] column. SQLite keeps a real
    without a fractional part as an integer where it can, and the integer 0
    has no sign: a negative zero is read as [0]. Every other number is read
    as it was written. *)
Definition sqliteReal (f : float64) : float64 :=
  match classify f with
  | NZero => 0%float
  | _ => f
  end.

(** An [int64] as a [float64], rounded to the nearest. *)
Definition floatOfInt64 (z : Z) : float64 :=
  if z =? - 2 ^ 63 then (- 9223372036854775808)%float
  else if z <? 0 then (- of_uint63 (Uint63.of_Z (- z)))%float
  else of_uint63 (Uint63.of_Z z).

(** The next [AUTOINCREMENT] key: one more than the largest in the table. *)
Definition nextId (rows : list Row) : Z :=
  1 + foldr Z.max 0 (id <$> rows).

(** [savePosition]: the [INSERT] gives the row its [id] and its
    [created_at]; the result is the new state and whether [err != nil]. *)
Definition savePosition (env : Env) (position : GPSPosition) (st : Server)
    : Server * bool :=
  if dbDown env then (st, true)
  else
    let r := {| id := nextId (positions st);
                latitude := Real (sqliteReal (Latitude position));
                longitude := Real (sqliteReal (Longitude position));
                timestamp := Integer (Timestamp position);
                created_at := CURRENT_TIMESTAMP env |} in
    (emit (Insert r)
       {| connections := connections st; closed := closed st;
          positions := positions st ++ [r]; trace := trace st |},
     false).

(** Latitude and longitude are numbers. *)
Definition finitePosition (p : GPSPosition) : bool :=
  finite (Latitude p) && finite (Longitude p).

(** The position as it comes back from the row that [savePosition]
    writes. *)
Definition readBack (p : GPSPosition) : GPSPosition :=
  {| Latitude := sqliteReal (Latitude p);
     Longitude := sqliteReal (Longitude p);
     Timestamp := Timestamp p |}.

(** [ORDER BY created_at] and [ORDER BY created_at DESC]. SQLite reads the
    table in [id] order and keeps rows with the same [created_at] in the
    order in which it read them, in both directions. *)
Definition before (desc : bool) (r x : Row) : bool :=
  if desc then created_at x <=? created_at r
  else created_at r <=? created_at x.

Fixpoint place (desc : bool) (r : Row) (sorted : list Row) : list Row :=
  match sorted with
  | [] => [r]
  | x :: sorted' =>
      if before desc r x then r :: sorted else x :: place desc r sorted'
  end.

Definition orderByCreatedAt (desc : bool) (rows : list Row) : list Row :=
  foldr (place desc) [] rows.

(** A column read into a [*float64]: a [REAL] as it is, and anything else
    through its text and [strconv.ParseFloat]. *)
Definition scanFloat64 (c : Cell) : option float64 :=
  match c with
  | Real f => Some f
  | Integer z => Some (floatOfInt64 z)
  | Text _ n => ParseFloat n
  end.

(** A column read into an [*int64]: an [INTEGER] as it is, and anything
    else through its text and [strconv.ParseInt]. The affinity of the
    column [timestamp] leaves a [REAL] there only when it is no [int64];
    its text has a fraction or an exponent, and does not parse. *)
Definition scanInt64 (c : Cell) : option int64 :=
  match c with
  | Integer z => Some z
  | Real _ => None
  | Text _ n => ParseInt n
  end.

(** [rows.Scan(&pos.Latitude, &pos.Longitude, &pos.Timestamp)] *)
Definition Scan (r : Row) : option GPSPosition :=
  lat ← scanFloat64 (latitude r);
  lng ← scanFloat64 (longitude r);
  ts ← scanInt64 (timestamp r);
  Some {| Latitude := lat; Longitude := lng; Timestamp := ts |}.

(** ** Requests and responses *)

(** A JSON value of a request body. *)
Inductive Value :=
| VNull
| VBool (b : bool)
| VNumber (n : Number)
| VString (s : string)
| VArray (items : list Value)
| VObject (members : list (string * Value)).

(** [r.Method] and [r.Body]; the body is given by the first JSON value the
    decoder finds in it, [None] when there is none (an empty body, a syntax
    error). *)
Record Request := {
  Method : string;
  Body : option Value
}.

(** JSON as the server's encoder writes it. *)
Inductive JSON :=
| JNull
| JFloat (f : float64)
| JInt (z : Z)
| JString (s : string)
| JArray (items : list JSON)
| JObject (members : list (string * JSON)).

(** What a handler writes as the body; [Empty] when it writes nothing. *)
Inductive Payload :=
| PlainText (line : string)
| Json (v : JSON)
| Empty.

Record Response := {
  StatusCode : Z;
  ContentType : string;
  Written : Payload
}.

(** [http.Error(w, msg, code)] *)
Definition httpError (msg : string) (code : Z) : Response :=
  {| StatusCode := code; ContentType := "text/plain; charset=utf-8";
     Written := PlainText msg |}.

(** [Encode] returns an error, and writes nothing, for a value that holds
    an infinity or a NaN. *)
Fixpoint encodable (v : JSON) : bool :=
  match v with
  | JFloat f => finite f
  | JArray items => forallb encodable items
  | JObject members => forallb (λ kv, encodable kv.2) members
  | _ => true
  end.

(** [w.Header().Set("Content-Type", "application/json")] followed by
    [json.NewEncoder(w).Encode(v)]: the status is the implicit 200, and the
    handlers drop the error of [Encode], which leaves the body empty. *)
Definition writeJSON (v : JSON) : Response :=
  {| StatusCode := 200; ContentType := "application/json";
     Written := if encodable v then Json v else Empty |}.

Definition MethodGet : string := "GET".
Definition MethodPost : string := "POST".

(** ** Decoding a request body *)

Inductive Field := FLatitude | FLongitude | FTimestamp.

Definition lower (a : ascii) : ascii :=
  let n := nat_of_ascii a in
  if ((65 <=? n) && (n <=? 90))%nat then ascii_of_nat (n + 32) else a.

(** A key, given by its UTF-8 bytes, up to case. Besides the ASCII letters
    two letters fold to an ASCII one: the long s (U+017F, the bytes C5 BF)
    to [s] and the Kelvin sign (U+212A, the bytes E2 84 AA) to [k]. *)
Fixpoint foldName (s : string) : string :=
  match s with
  | EmptyString => EmptyString
  | String a s1 =>
      match s1 with
      | String b s2 =>
          if decide (nat_of_ascii a = 197 ∧ nat_of_ascii b = 191)%nat
          then String "s" (foldName s2)
          else
            match s2 with
            | String c s3 =>
                if decide (nat_of_ascii a = 226 ∧ nat_of_ascii b = 132
                           ∧ nat_of_ascii c = 170)%nat
                then String "k" (foldName s3)
                else String (lower a) (foldName s1)
            | EmptyString => String (lower a) (foldName s1)
            end
      | EmptyString => String (lower a) (foldName s1)
      end
  end.

(** The struct field an object key names: [encoding/json] takes the key
    that equals the tag and otherwise the one that equals it up to case. *)
Definition fieldByName (key : string) : option Field :=
  let k := foldName key in
  if decide (k = "latitude") then Some FLatitude
  else if decide (k = "longitude") then Some FLongitude
  else if decide (k = "timestamp") then Some FTimestamp
  else None.

(** The [float64] of a JSON number: for a literal that is too large
    [ParseFloat] returns an infinity together with a range error, so that
    what it returns without an error is finite. *)
Definition float64Of (n : Number) : option float64 :=
  x ← ParseFloat n; if finite x then Some x else None.

(** Storing a number in a field: a [float64] field takes what [ParseFloat]
    gives, the [int64] field what [ParseInt] gives. *)
Definition storeNumber (f : Field) (n : Number) (p : GPSPosition)
    : option GPSPosition :=
  match f with
  | FLatitude =>
      x ← float64Of n;
      Some {| Latitude := x; Longitude := Longitude p;
              Timestamp := Timestamp p |}
  | FLongitude =>
      x ← float64Of n;
      Some {| Latitude := Latitude p; Longitude := x;
              Timestamp := Timestamp p |}
  | FTimestamp =>
      z ← ParseInt n;
      Some {| Latitude := Latitude p; Longitude := Longitude p;
              Timestamp := z |}
  end.

(** One member of an object. A key that names no field is skipped and so
    is [null]; a value of the wrong kind, or a number the field cannot
    hold, is remembered as the error to return and decoding goes on. *)
Definition decodeMember (acc : GPSPosition * bool) (kv : string * Value)
    : GPSPosition * bool :=
  match fieldByName kv.1 with
  | None => acc
  | Some f =>
      match kv.2 with
      | VNull => acc
      | VNumber n =>
          match storeNumber f n acc.1 with
          | Some p' => (p', acc.2)
          | None => (acc.1, true)
          end
      | _ => (acc.1, true)
      end
  end.

(** [json.NewDecoder(r.Body).Decode(&position)]; [None] is [err != nil]. *)
Definition Decode (body : option Value) (position : GPSPosition)
    : option GPSPosition :=
  match body with
  | None => None
  | Some VNull => Some position
  | Some (VObject members) =>
      let '(p, failed) := foldl decodeMember (position, false) members in
      if failed then None else Some p
  | Some _ => None
  end.

(** [var position GPSPosition] *)
Definition zeroPosition : GPSPosition :=
  {| Latitude := 0%float; Longitude := 0%float; Timestamp := 0 |}.

(** ** Encoding a response *)

Definition marshalPosition (p : GPSPosition) : JSON :=
  JObject [("latitude", JFloat (Latitude p));
           ("longitude", JFloat (Longitude p));
           ("timestamp", JInt (Timestamp p))].

(** [var positions []GPSPosition] is the nil slice until the first
    [append], and the encoder writes a nil slice as [null]; in
    [handleHistory] a slice of length 0 is always the nil one. *)
Definition marshalPositions (positions : list GPSPosition) : JSON :=
  match positions with
  | [] => JNull
  | _ => JArray (marshalPosition <$> positions)
  end.

Definition marshalConfig (c : Config) : JSON :=
  JObject [("mapStyle", JString (MapStyle c))].

(** [map[string]string{"status": "ok"}] *)
Definition statusOk : JSON := JObject [("status", JString "ok")].

(** ** The HTTP handlers *)

Definition withTimestamp (t : Z) (p : GPSPosition) : GPSPosition :=
  {| Latitude := Latitude p; Longitude := Longitude p; Timestamp := t |}.

(** [handlePosition] *)
Definition handlePosition (env : Env) (r : Request) (st : Server)
    : Server * Response :=
  if decide (Method r ≠ MethodPost) then
    (st, httpError "Method not allowed" 405)
  else
    match Decode (Body r) zeroPosition with
    | None => (st, httpError "Invalid JSON" 400)
    | Some decoded =>
        let position := withTimestamp (Now env) decoded in
        let '(st1, failed) := savePosition env position st in
        if failed then
          (logPrintf SaveFailed st1,
           httpError "Failed to save position" 500)
        else
          let st2 := broadcastPosition env position st1 in
          (logPrintf (Received (Latitude position) (Longitude position)) st2,
           writeJSON statusOk)
    end.

Definition defaultMapStyle : string :=
  "https://vector.openstreetmap.org/shortbread_v1/tilejson.json".

(** [handleConfig] *)
Definition handleConfig (env : Env) (r : Request) (st : Server)
    : Server * Response :=
  let mapStyle :=
    if decide (MAP_STYLE env = "") then defaultMapStyle else MAP_STYLE env in
  (st, writeJSON (marshalConfig {| MapStyle := mapStyle |})).

(** The loop over [rows.Next()] in [handleHistory]: a row that does not
    scan is logged and skipped. *)
Fixpoint scanRows (rows : list Row) (positions : list GPSPosition)
    (st : Server) : Server * list GPSPosition :=
  match rows with
  | [] => (st, positions)
  | r :: rows' =>
      match Scan r with
      | None => scanRows rows' positions (logPrintf ScanRowFailed st)
      | Some pos => scanRows rows' (positions ++ [pos]) st
      end
  end.

(** [handleHistory] *)
Definition handleHistory (env : Env) (r : Request) (st : Server)
    : Server * Response :=
  if decide (Method r ≠ MethodGet) then
    (st, httpError "Method not allowed" 405)
  else if dbDown env then
    (logPrintf QueryHistoryFailed st,
     httpError "Failed to fetch history" 500)
  else
    let rows := orderByCreatedAt false (positions st) in
    let '(st1, positions) := scanRows rows [] st in
    (st1, writeJSON (marshalPositions positions)).

(** [handleLastPosition]: [LIMIT 1] keeps the first row of the ordered
    result, and [QueryRow(...).Scan] returns [sql.ErrNoRows] when there is
    none. *)
Definition handleLastPosition (env : Env) (r : Request) (st : Server)
    : Server * Response :=
  if decide (Method r ≠ MethodGet) then
    (st, httpError "Method not allowed" 405)
  else if dbDown env then
    (logPrintf QueryLastFailed st,
     httpError "Failed to fetch last position" 500)
  else
    match take 1 (orderByCreatedAt true (positions st)) with
    | [] => (st, writeJSON JNull)
    | row :: _ =>
        match Scan row with
        | None =>
            (logPrintf QueryLastFailed st,
             httpError "Failed to fetch last position" 500)
        | Some position => (st, writeJSON (marshalPosition position))
        end
    end.

(** ** The connection lifecycle handler *)

(** What [conn.ReadMessage()] gives the loop; the message is dropped. *)
Inductive Read :=
| Message (data : string)
| ReadError.

(** Where a call of [handleWebSocket] stands once the peer has done what
    the script says: the upgrade failed, the handler is blocked in
    [ReadMessage], or it has returned. *)
Inductive Lifecycle :=
| Aborted
| Open (c : Conn)
| Closed (c : Conn).

(** The [for] loop: it ends at the first read that fails, and a read on a
    transport the server has closed fails. The result says whether the
    loop was left. *)
Fixpoint readLoop (c : Conn) (reads : list Read) (st : Server)
    : Server * bool :=
  match reads with
  | [] => (st, false)
  | rd :: reads' =>
      if decide (c ∈ closed st) then (logPrintf ReadFailed st, true)
      else
        match rd with
        | ReadError => (logPrintf ReadFailed st, true)
        | Message _ => readLoop c reads' st
        end
  end.

(** [handleWebSocket]: [upgrade] is what [upgrader.Upgrade] returns, the
    new connection or [None] for an error; the deferred function runs when
    the loop is left. *)
Definition handleWebSocket (upgrade : option Conn) (reads : list Read)
    (st : Server) : Server * Lifecycle :=
  match upgrade with
  | None => (logPrintf UpgradeFailed st, Aborted)
  | Some conn =>
      let st1 := logPrintf (ClientConnected conn) st in
      let st2 := register conn st1 in
      let '(st3, exited) := readLoop conn reads st2 in
      if exited then (deregister conn (connClose conn st3), Closed conn)
      else (st3, Open conn)
  end.

(** ** A sample state *)

Definition demoEnv : Env :=
  {| Now := 1700000000; CURRENT_TIMESTAMP := 1700000000; dbDown := false;
     peerGone := {[ 1%positive ]}; MAP_STYLE := "" |}.

Definition demoServer : Server :=
  {| connections := {[ 1%positive := true; 2%positive := true ]};
     closed := ∅; positions := []; trace := [] |}.

Definition berlin : GPSPosition :=
  {| Latitude := 52.52; Longitude := 13.405; Timestamp := 0 |}.

(** ** Goroutines and [connMutex] *)

Module Concurrent.

(** [sync.RWMutex]: the number of readers inside and whether a writer is. *)
Record RWMutex := {
  readers : nat;
  writer : bool
}.

(** The lock operations return [None] when the caller has to wait. *)
Definition RLock (m : RWMutex) : option RWMutex :=
  if writer m then None
  else Some {| readers := S (readers m); writer := false |}.

Definition RUnlock (m : RWMutex) : RWMutex :=
  {| readers := Nat.pred (readers m); writer := writer m |}.

Definition Lock (m : RWMutex) : option RWMutex :=
  if writer m then None
  else match readers m with
       | O => Some {| readers := O; writer := true |}
       | S _ => None
       end.

Definition Unlock (m : RWMutex) : RWMutex :=
  {| readers := readers m; writer := false |}.

(** Where a goroutine stands, at the grain of the operations on
    [connMutex] and [connections]. *)
Inductive Goroutine :=
| Broadcast (env : Env) (position : GPSPosition)
    (* [broadcastPosition] called, before [connMutex.RLock()] *)
| Ranging (env : Env) (position : GPSPosition) (keys : list Conn)
    (* read lock held, inside the loop; [keys] are still to come *)
| WsUpgraded (c : Conn)
    (* [handleWebSocket] after the upgrade, before [connMutex.Lock()] *)
| WsRegistering (c : Conn)
    (* lock held, before [connections[conn] = true] *)
| WsReading (c : Conn)
    (* in the read loop *)
| WsClosing (c : Conn)
    (* deferred function after [conn.Close()], before [connMutex.Lock()] *)
| WsDeleting (c : Conn)
    (* lock held, before [delete(connections, conn)] *)
| Returned.

Record System := {
  server : Server;
  connMutex : RWMutex;
  goroutines : list Goroutine
}.

(** One step of a goroutine on the shared state: the new state of the
    server, of the mutex, and of the goroutine; [None] when it waits for
    the lock or has returned. *)
Definition advance (g : Goroutine) (rd : Read) (st : Server) (m : RWMutex)
    : option (Server * RWMutex * Goroutine) :=
  match g with
  | Broadcast env position =>
      m' ← RLock m;
      Some (st, m', Ranging env position (elements (dom (connections st))))
  | Ranging env position [] =>
      Some (st, RUnlock m, Returned)
  | Ranging env position (c :: keys) =>
      Some (if decide (c ∈ dom (connections st))
            then visit env position c st else st,
            m, Ranging env position keys)
  | WsUpgraded c =>
      m' ← Lock m;
      Some (logPrintf (ClientConnected c) st, m', WsRegistering c)
  | WsRegistering c =>
      Some (register c st, Unlock m, WsReading c)
  | WsReading c =>
      if decide (c ∈ closed st) then
        Some (connClose c (logPrintf ReadFailed st), m, WsClosing c)
      else
        match rd with
        | ReadError =>
            Some (connClose c (logPrintf ReadFailed st), m, WsClosing c)
        | Message _ => Some (st, m, WsReading c)
        end
  | WsClosing c =>
      m' ← Lock m;
      Some (st, m', WsDeleting c)
  | WsDeleting c =>
      Some (deregister c st, Unlock m, Returned)
  | Returned => None
  end.

(** The scheduler lets goroutine [i] take a step. *)
Definition step (i : nat) (rd : Read) (s : System) : option System :=
  g ← goroutines s !! i;
  '(st, m, g') ← advance g rd (server s) (connMutex s);
  Some {| server := st; connMutex := m;
          goroutines := <[i := g']> (goroutines s) |}.

Fixpoint run (schedule : list (nat * Read)) (s : System) : option System :=
  match schedule with
  | [] => Some s
  | (i, rd) :: schedule' => s' ← step i rd s; run schedule' s'
  end.

(** The entry the next step of [g] deletes from [connections], if any. *)
Definition deletes (g : Goroutine) (st : Server) : option Conn :=
  match g with
  | Ranging env _ (c :: _) =>
      if decide (c ∈ dom (connections st)) then
        if decide ((c ∉ closed st) ∧ (c ∉ peerGone env)) then None
        else Some c
      else None
  | WsDeleting c => Some c
  | _ => None
  end.

(** The goroutine is inside the loop over [connections]. *)
Definition iterating (g : Goroutine) : bool :=
  match g with
  | Ranging _ _ _ => true
  | _ => false
  end.

(** The goroutine holds [connMutex] for writing. *)
Definition exclusive (g : Goroutine) : bool :=
  match g with
  | WsRegistering _ | WsDeleting _ => true
  | _ => false
  end.

(** Goroutine [i] is about to delete an entry of [connections] while
    another goroutine is in the middle of its loop over the map. *)
Definition deleteDuringIteration (s : System) (i : nat) : Prop :=
  ∃ g c j h,
    goroutines s !! i = Some g ∧ deletes g (server s) = Some c ∧
    j ≠ i ∧ goroutines s !! j = Some h ∧ iterating h = true.

(** The state in which the handlers start: nobody holds the lock. *)
Definition initial (st : Server) (gs : list Goroutine) : System :=
  {| server := st; connMutex := {| readers := O; writer := false |};
     goroutines := gs |}.

(** How many goroutines are in a state that [f] picks. *)
Fixpoint count (f : Goroutine → bool) (gs : list Goroutine) : nat :=
  match gs with
  | [] => O
  | g :: gs' => ((if f g then 1 else 0) + count f gs')%nat
  end.

(** What [connMutex] promises: its reader count is the number of
    goroutines inside the loop, its writer flag says whether a goroutine is
    between [Lock] and [Unlock], and a writer is alone. *)
Definition lockInvariant (s : System) : Prop :=
  readers (connMutex s) = count iterating (goroutines s) ∧
  count exclusive (goroutines s)
  = (if writer (connMutex s) then 1 else 0)%nat ∧
  (writer (connMutex s) = true → count iterating (goroutines s) = O).

(** A goroutine that has not touched the lock yet. *)
Definition outside (g : Goroutine) : Prop :=
  iterating g = false ∧ exclusive g = false.

(** Two POSTs served at once, over a registry in which the transport of
    connection 1 is gone. *)
Definition twoBroadcasts : System :=
  initial demoServer [Broadcast demoEnv berlin; Broadcast demoEnv berlin].

End Concurrent.

(** ** The server at work *)

(** A call of one of the handlers that [main] registers. *)
Inductive Call :=
| Position (env : Env) (r : Request)
| History (env : Env) (r : Request)
| LastPosition (env : Env) (r : Request)
| GetConfig (env : Env) (r : Request)
| WebSocket (upgrade : option Conn) (reads : list Read).

Definition serve (st : Server) (call : Call) : Server :=
  match call with
  | Position env r => (handlePosition env r st).1
  | History env r => (handleHistory env r st).1
  | LastPosition env r => (handleLastPosition env r st).1
  | GetConfig env r => (handleConfig env r st).1
  | WebSocket upgrade reads => (handleWebSocket upgrade reads st).1
  end.

Definition serveAll (calls : list Call) (st : Server) : Server :=
  foldl serve st calls.

(** The call is an upgrade that returns the connection [c]. *)
Definition upgrades (c : Conn) (call : Call) : Prop :=
  match call with
  | WebSocket (Some c') _ => c' = c
  | _ => False
  end.

(** ** What a connection can tell about the state *)

(** Whether [c] is in the registry, whether its transport was closed by the
    server, and what was written to it. *)
Definition view (st : Server) (c : Conn)
    : option bool * bool * list GPSPosition :=
  (connections st !! c, bool_decide (c ∈ closed st), delivered st c).

(** What one broadcast of [position] makes of the view of [c]: nothing when
    [c] is not registered, one more delivery when the write goes through,
    and otherwise a closed transport and no entry in the registry. *)
Definition fate (env : Env) (position : GPSPosition) (c : Conn)
    (v : option bool * bool * list GPSPosition)
    : option bool * bool * list GPSPosition :=
  match v.1.1 with
  | None => v
  | Some _ =>
      if decide (v.1.2 = false ∧ c ∉ peerGone env)
      then (v.1.1, v.1.2, position :: v.2)
      else (None, true, v.2)
  end.

(** The read gave a message. *)
Definition isMessage (rd : Read) : Prop :=
  match rd with
  | Message _ => True
  | ReadError => False
  end.

(** ** What a request body holds *)

(** The body is an object with a number under [key]. *)
Definition hasNumber (key : string) (body : option Value) : Prop :=
  ∃ members n, body = Some (VObject members) ∧ (key, VNumber n) ∈ members.

(** The value is neither a number nor [null]. *)
Definition wrongKind (v : Value) : Prop :=
  match v with
  | VNull | VNumber _ => False
  | _ => True
  end.

(** A member that makes [Decode] return an error: it names a field and its
    value is neither [null] nor a number the field can hold. *)
Definition badMember (kv : string * Value) : Prop :=
  match fieldByName kv.1 with
  | None => False
  | Some f =>
      match kv.2 with
      | VNull => False
      | VNumber n => storeNumber f n zeroPosition = None
      | _ => True
      end
  end.

(** ** What the table holds *)

(** The table as the clock leaves it when it never runs backwards: the
    rows, in the order of their insertion, have ascending [created_at]. *)
Definition chronological (rows : list Row) : Prop :=
  StronglySorted (λ a b, created_at a ≤ created_at b) rows.

(** Every row scans, as the rows that [savePosition] writes do. *)
Definition scannable (rows : list Row) : Prop :=
  Forall (λ r, is_Some (Scan r)) rows.

(** The stored positions, in the order of their insertion. *)
Definition stored (st : Server) : list GPSPosition :=
  omap Scan (positions st).

(** [r] behind the rows that are not older than it; this is where
    [ORDER BY created_at DESC] leaves the row inserted last. *)
Fixpoint placeLast (r : Row) (sorted : list Row) : list Row :=
  match sorted with
  | [] => [r]
  | x :: sorted' =>
      if created_at r <=? created_at x then x :: placeLast r sorted'
      else r :: sorted
  end.

(** ** Sample requests *)

(** The body [{"latitude": 52.52, "longitude": 13.405}]. *)
Definition demoPost : Request :=
  {| Method := "POST";
     Body := Some (VObject
       [("latitude", VNumber {| ParseFloat := Some 52.52%float;
                                ParseInt := None |});
        ("longitude", VNumber {| ParseFloat := Some 13.405%float;
                                 ParseInt := None |})]) |}.

(** The body [{}]. *)
Definition emptyObjectPost : Request :=
  {| Method := "POST"; Body := Some (VObject []) |}.

(** The body
    [{"latitude": 52.52, "longitude": 13.405, "timestamp": 12345}]. *)
Definition clientStampedPost : Request :=
  {| Method := "POST";
     Body := Some (VObject
       [("latitude", VNumber {| ParseFloat := Some 52.52%float;
                                ParseInt := None |});
        ("longitude", VNumber {| ParseFloat := Some 13.405%float;
                                 ParseInt := None |});
        ("timestamp", VNumber {| ParseFloat := Some 12345%float;
                                 ParseInt := Some 12345 |})]) |}.

(** The body [{"latitude": lat, "longitude": 0}]. *)
Definition postLatitude (lat : float64) : Request :=
  {| Method := "POST";
     Body := Some (VObject
       [("latitude", VNumber {| ParseFloat := Some lat; ParseInt := None |});
        ("longitude", VNumber {| ParseFloat := Some 0%float;
                                 ParseInt := Some 0 |})]) |}.

Definition getRequest : Request := {| Method := "GET"; Body := None |}.

Definition deleteRequest : Request := {| Method := "DELETE"; Body := None |}.

Definition emptyServer : Server :=
  {| connections := ∅; closed := ∅; positions := []; trace := [] |}.

(** The server after two positions were posted within one second. *)
Definition sameSecondServer : Server :=
  (handlePosition demoEnv demoPost
     (handlePosition demoEnv (postLatitude 48.137) emptyServer).1).1.

(** ** The registry and the transports together *)

(** No connection of the registry has a transport the server has closed. *)
Definition healthy (st : Server) : Prop :=
  ∀ c, registered st c → c ∉ closed st.

(** [upgrader.Upgrade] hands out a connection that was not closed before. *)
Definition freshUpgrade (st : Server) (call : Call) : Prop :=
  match call with
  | WebSocket (Some c) _ => c ∉ closed st
  | _ => True
  end.

(** ** A run of POSTs *)

(** The position a call of [handlePosition] stores, if it stores one, as
    it is read back from the table. *)
Definition accepted (env : Env) (r : Request) : option GPSPosition :=
  if decide (Method r = MethodPost) then
    if dbDown env then None
    else (λ decoded, readBack (withTimestamp (Now env) decoded))
           <$> Decode (Body r) zeroPosition
  else None.

Definition servePosts (posts : list (Env * Request)) (st : Server)
    : Server :=
  foldl (λ s post, (handlePosition post.1 post.2 s).1) st posts.

(** From the second [t] on, SQLite's clock does not run backwards during
    the run. *)
Fixpoint clockOrdered (t : Z) (posts : list (Env * Request)) : Prop :=
  match posts with
  | [] => True
  | post :: posts' =>
      t ≤ CURRENT_TIMESTAMP post.1 ∧
      clockOrdered (CURRENT_TIMESTAMP post.1) posts'
  end.

(** ** The variant without a store *)

Module BroadcastOnly.

(** [handlePosition] of the variant that keeps no table: the decoded
    position is stamped and broadcast at once. *)
Definition handlePosition (env : Env) (r : Request) (st : Server)
    : Server * Response :=
  if decide (Method r ≠ MethodPost) then
    (st, httpError "Method not allowed" 405)
  else
    match Decode (Body r) zeroPosition with
    | None => (st, httpError "Invalid JSON" 400)
    | Some decoded =>
        let position := withTimestamp (Now env) decoded in
        let st1 := broadcastPosition env position st in
        (logPrintf (Received (Latitude position) (Longitude position)) st1,
         writeJSON statusOk)
    end.

End BroadcastOnly.

(** ** The variant that sends random positions *)

Module Simulator.

(** The lines this variant prints. *)
Inductive Line :=
| UpgradeFailedLine
| ClientConnectedLine
| WriteFailedLine
| SentLine (lat lng : float64).

(** The one connection a call of [handleWebSocket] serves: the frames
    written to it and the lines logged, newest first, and what the deferred
    calls have done. *)
Record Session := {
  frames : list GPSPosition;
  lines : list Line;
  connClosed : bool;
  tickerStopped : bool
}.

(** What happens at one tick of the ticker: the two draws of
    [rand.Float64()], the time, and whether the write fails. *)
Record Tick := {
  drawLat : float64;
  drawLng : float64;
  tickNow : Z;
  writeFails : bool
}.

(** [generateRandomPosition], every operation rounded to [float64]. *)
Definition generateRandomPosition (drawLat drawLng : float64) (now : Z)
    : GPSPosition :=
  let baseLat := 52.5200%float in
  let baseLng := 13.4050%float in
  let latOffset := ((drawLat - 0.5) * 0.1)%float in
  let lngOffset := ((drawLng - 0.5) * 0.1)%float in
  {| Latitude := (baseLat + latOffset)%float;
     Longitude := (baseLng + lngOffset)%float;
     Timestamp := now |}.

Definition logLine (l : Line) (s : Session) : Session :=
  {| frames := frames s; lines := l :: lines s;
     connClosed := connClosed s; tickerStopped := tickerStopped s |}.

Definition writeFrame (p : GPSPosition) (s : Session) : Session :=
  {| frames := p :: frames s; lines := lines s;
     connClosed := connClosed s; tickerStopped := tickerStopped s |}.

(** The [for] / [select] loop: one position per tick until a write fails.
    The result says whether the handler has returned. *)
Fixpoint tickLoop (ticks : list Tick) (s : Session) : Session * bool :=
  match ticks with
  | [] => (s, false)
  | t :: ticks' =>
      let position :=
        generateRandomPosition (drawLat t) (drawLng t) (tickNow t) in
      if writeFails t then (logLine WriteFailedLine s, true)
      else
        tickLoop ticks'
          (logLine (SentLine (Latitude position) (Longitude position))
             (writeFrame position s))
  end.

(** The deferred calls, last one first: [ticker.Stop()], [conn.Close()]. *)
Definition deferred (s : Session) : Session :=
  {| frames := frames s; lines := lines s;
     connClosed := true; tickerStopped := true |}.

Definition newSession : Session :=
  {| frames := []; lines := []; connClosed := false;
     tickerStopped := false |}.

(** [handleWebSocket] of this variant: the session and whether the handler
    has returned. When the upgrade fails there is no connection to write
    to or to close, and the line is all there is. *)
Definition handleWebSocket (upgraded : bool) (ticks : list Tick)
    : Session * bool :=
  if upgraded then
    let '(s, returned) :=
      tickLoop ticks (logLine ClientConnectedLine newSession) in
    if returned then (deferred s, true) else (s, false)
  else (logLine UpgradeFailedLine newSession, true).

End Simulator.

(** ** Goroutines at rest *)

(** The goroutine has returned. *)
Definition finished (g : Concurrent.Goroutine) : bool :=
  match g with
  | Concurrent.Returned => true
  | _ => false
  end.

(** The goroutine is at a call of [connMutex.Lock()]. *)
Definition wantsLock (g : Concurrent.Goroutine) : bool :=
  match g with
  | Concurrent.WsUpgraded _ | Concurrent.WsClosing _ => true
  | _ => false
  end.

Definition allReturned (s : Concurrent.System) : Prop :=
  Forall (λ g, finished g = true) (Concurrent.goroutines s).

(** The steps of a handler that runs alone: goroutine 0 is scheduled again
    and again, and reads what the script says. *)
Definition alone (reads : list Read) : list (nat * Read) :=
  (λ rd, (O, rd)) <$> reads.

(** ** What a handler leaves alone *)

(** [st'] differs from [st] in log lines at most. *)
Definition untouched (st st' : Server) : Prop :=
  connections st' = connections st ∧ closed st' = closed st ∧
  positions st' = positions st ∧ (∀ c, delivered st' c = delivered st c).

(** ** More sample requests *)

(** The body [{"latitude": "north", "longitude": 13.405}]. *)
Definition stringLatitudePost : Request :=
  {| Method := "POST";
     Body := Some (VObject
       [("latitude", VString "north");
        ("longitude", VNumber {| ParseFloat := Some 13.405%float;
                                 ParseInt := None |})]) |}.

(** The body
    [{"latitude": 52.52, "longitude": 13.405, "timestamp": 1.5}]. *)
Definition fractionalTimestampPost : Request :=
  {| Method := "POST";
     Body := Some (VObject
       [("latitude", VNumber {| ParseFloat := Some 52.52%float;
                                ParseInt := None |});
        ("longitude", VNumber {| ParseFloat := Some 13.405%float;
                                 ParseInt := None |});
        ("timestamp", VNumber {| ParseFloat := Some 1.5%float;
                                 ParseInt := None |})]) |}.

(** The environment of [demoEnv] with a store that fails. *)
Definition downEnv : Env :=
  {| Now := 1700000000; CURRENT_TIMESTAMP := 1700000000; dbDown := true;
     peerGone := {[ 1%positive ]}; MAP_STYLE := "" |}.

(** A minute after [demoEnv], with every peer there. *)
Definition laterEnv : Env :=
  {| Now := 1700000060; CURRENT_TIMESTAMP := 1700000060; dbDown := false;
     peerGone := ∅; MAP_STYLE := "" |}.

(** The server after one position was posted. *)
Definition oneRowServer : Server :=
  (handlePosition demoEnv (postLatitude 48.137) emptyServer).1.

(** Two broadcasts and a viewer who has just been upgraded. *)
Definition busyGoroutines : list Concurrent.Goroutine :=
  [Concurrent.Broadcast demoEnv berlin; Concurrent.Broadcast demoEnv berlin;
   Concurrent.WsUpgraded 3%positive].

(** The two broadcasts take turns until both have returned; then the
    viewer's handler takes the lock. *)
Definition busySchedule : list (nat * Read) :=
  [(0, ReadError); (1, ReadError); (0, ReadError); (1, ReadError);
   (0, ReadError); (1, ReadError); (0, ReadError); (1, ReadError);
   (2, ReadError)]%nat.

(** The position the simulator generates at a tick. *)
Definition simulated (t : Simulator.Tick) : GPSPosition :=
  Simulator.generateRandomPosition (Simulator.drawLat t)
    (Simulator.drawLng t) (Simulator.tickNow t).

(** Three ticks, the last with a write that fails. *)
Definition demoTicks : list Simulator.Tick :=
  [{| Simulator.drawLat := 0.5; Simulator.drawLng := 0.5;
      Simulator.tickNow := 1700000002; Simulator.writeFails := false |};
   {| Simulator.drawLat := 0.25; Simulator.drawLng := 0.75;
      Simulator.tickNow := 1700000004; Simulator.writeFails := false |};
   {| Simulator.drawLat := 0; Simulator.drawLng := 0;
      Simulator.tickNow := 1700000006; Simulator.writeFails := true |}].

(** A table whose second row holds a text where the latitude should be. *)
Definition brokenRowServer : Server :=
  {| connections := ∅; closed := ∅;
     positions :=
       [{| id := 1; latitude := Real 48.137; longitude := Real 0;
           timestamp := Integer 1700000000; created_at := 1700000000 |};
        {| id := 2;
           latitude := Text "north" {| ParseFloat := None; ParseInt := None |};
           longitude := Real 0;
           timestamp := Integer 1700000001; created_at := 1700000001 |};
        {| id := 3; latitude := Real 52.52; longitude := Real 13.405;
           timestamp := Integer 1700000002; created_at := 1700000002 |}];
     trace := [] |}.

(** The body [{"latitude": 1, "longitude": 2, "timeſtamp": "x"}], the
    fifth letter of the last key being the long s. *)
Definition longSKey : string :=
  "time" +:+ String (ascii_of_nat 197) (String (ascii_of_nat 191) "tamp").

Definition longSPost : Request :=
  {| Method := "POST";
     Body := Some (VObject
       [("latitude", VNumber {| ParseFloat := Some 1%float;
                                ParseInt := Some 1 |});
        ("longitude", VNumber {| ParseFloat := Some 2%float;
                                 ParseInt := Some 2 |});
        (longSKey, VString "x")]) |}.

(** The body [{"latitude": -0.0, "longitude": 13.405}]. *)
Definition negativeZeroPost : Request :=
  {| Method := "POST";
     Body := Some (VObject
       [("latitude", VNumber {| ParseFloat := Some (-0)%float;
                                ParseInt := None |});
        ("longitude", VNumber {| ParseFloat := Some 13.405%float;
                                 ParseInt := None |})]) |}.

(** A table whose only row holds the text [inf] as its latitude. *)
Definition infiniteRowServer : Server :=
  {| connections := ∅; closed := ∅;
     positions :=
       [{| id := 1;
           latitude := Text "inf" {| ParseFloat := Some infinity;
                                     ParseInt := None |};
           longitude := Real 0;
           timestamp := Integer 1700000000; created_at := 1700000000 |}];
     trace := [] |}.

(** * Properties *)

(** ** The broadcast dispatcher *)

Lemma visit_writable env p c st :
  writable env st c → visit env p c st = emit (Write c p) st.
Proof.
  intros Hw. unfold visit, WriteJSON. by rewrite decide_True.
Qed.

Lemma visit_broken env p c st :
  ¬ writable env st c →
  visit env p c st = deregister c (connClose c (logPrintf WriteFailed st)).
Proof.
  intros Hw. unfold visit, WriteJSON. by rewrite decide_False.
Qed.

Lemma visit_positions env p c st :
  positions (visit env p c st) = positions st.
Proof.
  destruct (decide (writable env st c)) as [Hw|Hw].
  - by rewrite visit_writable.
  - by rewrite visit_broken.
Qed.

Lemma view_visit_other env p c c' st :
  c ≠ c' → view (visit env p c st) c' = view st c'.
Proof.
  intros Hne. destruct (decide (writable env st c)) as [Hw|Hw].
  - rewrite visit_writable by done. unfold view, delivered; simpl.
    by rewrite decide_False.
  - rewrite visit_broken by done. unfold view, delivered; simpl.
    rewrite lookup_delete_ne by done. repeat f_equal.
    apply bool_decide_ext. rewrite elem_of_union, elem_of_singleton.
    split; [intros [->|?]; done | auto].
Qed.

Lemma view_visit_self env p c st :
  registered st c → view (visit env p c st) c = fate env p c (view st c).
Proof.
  intros [b Hb]%elem_of_dom. unfold fate, view at 2 3 4 5; simpl. rewrite Hb.
  destruct (decide (writable env st c)) as [Hw|Hw].
  - rewrite visit_writable by done. destruct Hw as [Hc Hg].
    rewrite decide_True by (by rewrite bool_decide_eq_false).
    unfold view, delivered; simpl. rewrite Hb, decide_True by done.
    done.
  - rewrite visit_broken by done.
    rewrite decide_False.
    + unfold view, delivered; simpl. rewrite lookup_delete_eq.
      by rewrite bool_decide_eq_true_2 by set_solver.
    + intros [Hc Hg]. apply Hw. split; [|done].
      by apply bool_decide_eq_false in Hc.
Qed.

Lemma range_positions env p keys st :
  positions (range keys (visit env p) st) = positions st.
Proof.
  revert st. induction keys as [|c keys IH]; intros st; simpl; [done|].
  rewrite IH. case_decide; [apply visit_positions | done].
Qed.

Lemma view_range_other env p keys c' st :
  c' ∉ keys → view (range keys (visit env p) st) c' = view st c'.
Proof.
  revert st. induction keys as [|c keys IH]; intros st Hnotin; simpl; [done|].
  apply not_elem_of_cons in Hnotin as [Hne Hnotin].
  rewrite IH by done. case_decide; [by apply view_visit_other | done].
Qed.

Lemma fate_unregistered env p c v : v.1.1 = None → fate env p c v = v.
Proof. intros H. unfold fate. by rewrite H. Qed.

Lemma view_unregistered st c :
  ¬ registered st c ↔ (view st c).1.1 = None.
Proof. unfold registered, view; simpl. by rewrite not_elem_of_dom. Qed.

(** One pass over the keys does to every connection what one visit does. *)
Lemma view_range env p keys c st :
  NoDup keys → (registered st c → c ∈ keys) →
  view (range keys (visit env p) st) c = fate env p c (view st c).
Proof.
  revert st. induction keys as [|k keys IH]; intros st Hnd Hin; simpl.
  - rewrite fate_unregistered; [done|].
    apply view_unregistered. intros Hr. by apply Hin, elem_of_nil in Hr.
  - apply NoDup_cons in Hnd as [Hk Hnd].
    destruct (decide (k = c)) as [->|Hne].
    + rewrite view_range_other by done. case_decide as Hr.
      * by apply view_visit_self.
      * rewrite fate_unregistered; [done|]. by apply view_unregistered.
    + assert (Hsame : view (if decide (k ∈ dom (connections st))
                            then visit env p k st else st) c = view st c).
      { case_decide; [by apply view_visit_other | done]. }
      rewrite IH, Hsame; [done..|].
      intros Hr. assert (registered st c) as Hr'.
      { destruct (decide (c ∈ dom (connections st))) as [|Hn]; [done|].
        apply view_unregistered in Hn. exfalso.
        revert Hr. apply view_unregistered. by rewrite Hsame. }
      apply Hin, elem_of_cons in Hr' as [->|]; done.
Qed.

Lemma view_broadcastPosition env p st c :
  view (broadcastPosition env p st) c = fate env p c (view st c).
Proof.
  unfold broadcastPosition, broadcastPosition_in. apply view_range.
  - apply NoDup_elements.
  - intros Hr. by apply elem_of_elements.
Qed.

(** Whatever order the map iteration takes, every connection ends up the
    same. *)
Lemma broadcast_order env p keys st c :
  NoDup keys → (∀ k, k ∈ keys ↔ registered st k) →
  view (broadcastPosition_in keys env p st) c
  = view (broadcastPosition env p st) c.
Proof.
  intros Hnd Hkeys. rewrite view_broadcastPosition.
  unfold broadcastPosition_in. apply view_range; [done|]. apply Hkeys.
Qed.

Lemma broadcastPosition_positions env p st :
  positions (broadcastPosition env p st) = positions st.
Proof. apply range_positions. Qed.

Lemma view_inv st c m b d :
  view st c = (m, b, d) →
  connections st !! c = m ∧ (c ∈ closed st ↔ b = true) ∧ delivered st c = d.
Proof.
  unfold view. intros [= <- <- <-]. split_and!; [done| |done].
  symmetry. apply bool_decide_eq_true.
Qed.

Lemma view_broadcasts_unregistered calls st c :
  ¬ registered st c → view (broadcasts calls st) c = view st c.
Proof.
  revert st. induction calls as [|[env p] calls IH]; intros st Hr; [done|].
  unfold broadcasts in *; simpl.
  assert (view (broadcastPosition env p st) c = view st c) as Hone.
  { rewrite view_broadcastPosition. apply fate_unregistered.
    by apply view_unregistered. }
  rewrite IH, Hone; [done|].
  apply view_unregistered. rewrite Hone. by apply view_unregistered.
Qed.

(** A broadcast only adds to the trace, and what it adds are writes,
    closes and log lines. *)
Lemma visit_trace env p c st :
  ∃ effects,
    trace (visit env p c st) = effects ++ trace st ∧
    Forall (λ e, ∀ r, e ≠ Insert r) effects.
Proof.
  destruct (decide (writable env st c)) as [Hw|Hw].
  - rewrite visit_writable by done. exists [Write c p].
    split; [done|]. by repeat constructor.
  - rewrite visit_broken by done. exists [Close c; Log WriteFailed].
    split; [done|]. by repeat constructor.
Qed.

Lemma range_trace env p keys st :
  ∃ effects,
    trace (range keys (visit env p) st) = effects ++ trace st ∧
    Forall (λ e, ∀ r, e ≠ Insert r) effects.
Proof.
  revert st. induction keys as [|c keys IH]; intros st; simpl.
  - exists []. by split.
  - destruct (IH (if decide (c ∈ dom (connections st))
                  then visit env p c st else st)) as (es & Hes & Hall).
    case_decide.
    + destruct (visit_trace env p c st) as (es' & Hes' & Hall').
      exists (es ++ es'). rewrite Hes, Hes', (assoc_L (++)).
      split; [done|]. by apply Forall_app.
    + by exists es.
Qed.

(** ** The ingress handler *)

Lemma handlePosition_wrong_method env r st :
  Method r ≠ MethodPost →
  handlePosition env r st = (st, httpError "Method not allowed" 405).
Proof. intros H. unfold handlePosition. by rewrite decide_True. Qed.

Lemma handlePosition_invalid env r st :
  Method r = MethodPost → Decode (Body r) zeroPosition = None →
  handlePosition env r st = (st, httpError "Invalid JSON" 400).
Proof.
  intros Hm Hd. unfold handlePosition.
  rewrite decide_False by (by intros []). by rewrite Hd.
Qed.

Lemma handlePosition_store_down env r st decoded :
  Method r = MethodPost → Decode (Body r) zeroPosition = Some decoded →
  dbDown env = true →
  handlePosition env r st
  = (logPrintf SaveFailed st, httpError "Failed to save position" 500).
Proof.
  intros Hm Hd Hdb. unfold handlePosition, savePosition.
  rewrite decide_False by (by intros []). by rewrite Hd, Hdb.
Qed.

Lemma handlePosition_accepted env r st decoded :
  Method r = MethodPost → Decode (Body r) zeroPosition = Some decoded →
  dbDown env = false →
  let position := withTimestamp (Now env) decoded in
  handlePosition env r st
  = (logPrintf (Received (Latitude position) (Longitude position))
       (broadcastPosition env position (savePosition env position st).1),
     writeJSON statusOk).
Proof.
  intros Hm Hd Hdb. unfold handlePosition, savePosition.
  rewrite decide_False by (by intros []). by rewrite Hd, Hdb.
Qed.

Lemma view_emit_other e st c :
  (∀ p, e ≠ Write c p) → view (emit e st) c = view st c.
Proof.
  intros He. unfold view, delivered; simpl.
  destruct e as [| |c' p|]; try done.
  rewrite decide_False; [done|]. intros ->. by eapply He.
Qed.

Lemma view_savePosition env p st c :
  view (savePosition env p st).1 c = view st c.
Proof. unfold savePosition. by destruct (dbDown env). Qed.

(** What an accepted POST does, in the order in which it does it. *)
Lemma handlePosition_stored_then_broadcast env r st decoded :
  Method r = MethodPost →
  Decode (Body r) zeroPosition = Some decoded →
  dbDown env = false →
  let position := withTimestamp (Now env) decoded in
  let st' := (handlePosition env r st).1 in
  ∃ row effects,
    Scan row = Some (readBack position) ∧
    timestamp row = Integer (Now env) ∧
    positions st' = positions st ++ [row] ∧
    trace st'
    = Log (Received (Latitude position) (Longitude position))
        :: effects ++ Insert row :: trace st ∧
    Forall (λ e, ∀ r', e ≠ Insert r') effects ∧
    (∀ c, view st' c = fate env position c (view st c)).
Proof.
  intros Hm Hd Hdb position st'. unfold st'.
  rewrite (handlePosition_accepted env r st decoded) by done.
  fold position. unfold savePosition. rewrite Hdb. simpl.
  set (row := {| id := nextId (positions st);
                 latitude := Real (sqliteReal (Latitude decoded));
                 longitude := Real (sqliteReal (Longitude decoded));
                 timestamp := Integer (Now env);
                 created_at := CURRENT_TIMESTAMP env |}).
  set (st1 := emit (Insert row) _).
  destruct (range_trace env position (elements (dom (connections st1))) st1)
    as (effects & Heff & Hall).
  exists row, effects. split_and!; try done.
  - unfold broadcastPosition, broadcastPosition_in. by rewrite range_positions.
  - unfold broadcastPosition, broadcastPosition_in. by rewrite Heff.
  - intros c. unfold logPrintf. rewrite view_emit_other by done.
    rewrite view_broadcastPosition. unfold st1.
    by rewrite view_emit_other.
Qed.

(** C3. A POST whose body decodes is persisted first. When the insert
    fails the caller gets the 500 and nothing else happens: no row, no
    write to any connection, the registry as it was. Otherwise the row,
    which reads back as the position, is in the table before the first
    effect of the broadcast, every connection has been through the
    broadcast, and the caller gets 200 with the body [{"status":"ok"}]. *)
Theorem handlePosition_persist_then_broadcast env r st decoded :
  Method r = MethodPost →
  Decode (Body r) zeroPosition = Some decoded →
  let position := withTimestamp (Now env) decoded in
  let st' := (handlePosition env r st).1 in
  let resp := (handlePosition env r st).2 in
  if dbDown env then
    resp = {| StatusCode := 500; ContentType := "text/plain; charset=utf-8";
              Written := PlainText "Failed to save position" |} ∧
    trace st' = Log SaveFailed :: trace st ∧
    positions st' = positions st ∧
    connections st' = connections st ∧
    closed st' = closed st
  else
    ∃ row effects,
      Scan row = Some (readBack position) ∧
      positions st' = positions st ++ [row] ∧
      trace st'
      = Log (Received (Latitude position) (Longitude position))
          :: effects ++ Insert row :: trace st ∧
      Forall (λ e, ∀ r', e ≠ Insert r') effects ∧
      (∀ c, view st' c = fate env position c (view st c)) ∧
      resp = {| StatusCode := 200; ContentType := "application/json";
                Written := Json (JObject [("status", JString "ok")]) |}.
Proof.
  intros Hm Hd position st' resp. destruct (dbDown env) eqn:Hdb.
  - unfold st', resp.
    by rewrite (handlePosition_store_down env r st decoded).
  - destruct (handlePosition_stored_then_broadcast env r st decoded Hm Hd Hdb)
      as (row & effects & Hscan & _ & Hpos & Htrace & Hall & Hview).
    exists row, effects. split_and!; try done.
    unfold resp. by rewrite (handlePosition_accepted env r st decoded).
Qed.

Lemma handlePosition_persist_then_broadcast_witness :
  ∃ row effects,
    Scan row = Some (withTimestamp 1700000000 berlin) ∧
    positions (handlePosition demoEnv demoPost demoServer).1 = [row] ∧
    trace (handlePosition demoEnv demoPost demoServer).1
    = Log (Received 52.52 13.405) :: effects ++ [Insert row] ∧
    Forall (λ e, ∀ r', e ≠ Insert r') effects ∧
    (∀ c, view (handlePosition demoEnv demoPost demoServer).1 c
          = fate demoEnv (withTimestamp 1700000000 berlin) c
              (view demoServer c)) ∧
    (handlePosition demoEnv demoPost demoServer).2
    = {| StatusCode := 200; ContentType := "application/json";
         Written := Json (JObject [("status", JString "ok")]) |}.
Proof.
  apply (handlePosition_persist_then_broadcast demoEnv demoPost demoServer
           berlin); reflexivity.
Defined.

(** C4. When a position is accepted, the row that is stored and the
    position that is written to the connections carry [time.Now().Unix()]
    as their timestamp, whatever timestamp the body held. *)
Theorem handlePosition_server_timestamp env r st decoded :
  Method r = MethodPost →
  Decode (Body r) zeroPosition = Some decoded →
  dbDown env = false →
  let st' := (handlePosition env r st).1 in
  let stamped := {| Latitude := Latitude decoded;
                    Longitude := Longitude decoded;
                    Timestamp := Now env |} in
  (∃ row, positions st' = positions st ++ [row] ∧
          timestamp row = Integer (Now env) ∧
          Scan row = Some (readBack stamped) ∧
          Timestamp (readBack stamped) = Now env) ∧
  (∀ c, delivered st' c = delivered st c ∨
        delivered st' c = stamped :: delivered st c) ∧
  (∀ c, registered st c → writable env st c →
        delivered st' c = stamped :: delivered st c).
Proof.
  intros Hm Hd Hdb st' stamped.
  destruct (handlePosition_stored_then_broadcast env r st decoded Hm Hd Hdb)
    as (row & effects & Hscan & Hts & Hpos & _ & _ & Hview).
  fold st' in Hpos, Hview.
  change (withTimestamp (Now env) decoded) with stamped in Hscan, Hview.
  split_and!.
  - by exists row.
  - intros c. specialize (Hview c). unfold fate in Hview.
    destruct (view st c) as [[m b] d] eqn:Hv.
    apply view_inv in Hv as (_ & _ & <-). simpl in Hview.
    destruct m; [case_decide|]; apply view_inv in Hview as (_ & _ & <-);
      auto.
  - intros c [b Hb]%elem_of_dom [Hcl Hg]. specialize (Hview c).
    unfold fate, view at 2 3 4 5 in Hview. simpl in Hview.
    rewrite Hb, decide_True in Hview by (by rewrite bool_decide_eq_false).
    by apply view_inv in Hview as (_ & _ & <-).
Qed.

Lemma handlePosition_server_timestamp_witness :
  let st' := (handlePosition demoEnv clientStampedPost demoServer).1 in
  let stamped := withTimestamp 1700000000 berlin in
  (∃ row, positions st' = [row] ∧
          timestamp row = Integer 1700000000 ∧ Scan row = Some stamped ∧
          Timestamp stamped = 1700000000) ∧
  (∀ c, delivered st' c = delivered demoServer c ∨
        delivered st' c = stamped :: delivered demoServer c) ∧
  (∀ c, registered demoServer c → writable demoEnv demoServer c →
        delivered st' c = stamped :: delivered demoServer c).
Proof.
  apply (handlePosition_server_timestamp demoEnv clientStampedPost demoServer
           {| Latitude := 52.52; Longitude := 13.405; Timestamp := 12345 |});
    reflexivity.
Defined.

(** The timestamp of the body reaches the decoded position and goes no
    further. *)
Example client_timestamp_overridden :
  Decode (Body clientStampedPost) zeroPosition
  = Some {| Latitude := 52.52; Longitude := 13.405; Timestamp := 12345 |} ∧
  Scan <$> positions (handlePosition demoEnv clientStampedPost demoServer).1
  = [Some {| Latitude := 52.52; Longitude := 13.405;
             Timestamp := 1700000000 |}].
Proof. split; reflexivity. Qed.

(** A negative zero reaches the connections as it was decoded and comes
    back from the table as 0. *)
Example negative_zero_is_stored_as_zero :
  Scan <$> positions (handlePosition demoEnv negativeZeroPost demoServer).1
  = [Some {| Latitude := 0; Longitude := 13.405;
             Timestamp := 1700000000 |}] ∧
  delivered (handlePosition demoEnv negativeZeroPost demoServer).1 2%positive
  = [{| Latitude := (-0)%float; Longitude := 13.405;
        Timestamp := 1700000000 |}].
Proof. split; reflexivity. Qed.

(** *** What [Decode] rejects *)

Lemma storeNumber_None f n p :
  storeNumber f n p = None ↔ storeNumber f n zeroPosition = None.
Proof.
  destruct f; unfold storeNumber, float64Of;
    [destruct (ParseFloat n) as [x|]; simpl; [destruct (finite x)|]..
    |destruct (ParseInt n)]; done.
Qed.

Lemma decodeMember_failed acc kv :
  (decodeMember acc kv).2 = true ↔ acc.2 = true ∨ badMember kv.
Proof.
  unfold decodeMember, badMember. destruct (fieldByName kv.1) as [f|].
  - destruct kv.2 as [| |n| | |]; simpl; try tauto.
    rewrite <- (storeNumber_None f n acc.1).
    destruct (storeNumber f n acc.1); simpl; [|tauto].
    split; [tauto|]. by intros [|].
  - tauto.
Qed.

Lemma foldl_decodeMember_failed members acc :
  (foldl decodeMember acc members).2 = true
  ↔ acc.2 = true ∨ Exists badMember members.
Proof.
  revert acc. induction members as [|kv members IH]; intros acc; simpl.
  - rewrite Exists_nil. tauto.
  - rewrite IH, decodeMember_failed, Exists_cons. tauto.
Qed.

(** An object fails to decode exactly when one of its members is bad:
    keys that name no field do no harm, and no field has to be there. *)
Lemma Decode_object_None members p :
  Decode (Some (VObject members)) p = None ↔ Exists badMember members.
Proof.
  unfold Decode.
  pose proof (foldl_decodeMember_failed members (p, false)) as H.
  destruct (foldl decodeMember (p, false) members) as [p' failed].
  simpl in H. destruct failed.
  - split; [|done]. intros _. destruct H as [H _].
    destruct (H eq_refl) as [|]; done.
  - split; [done|]. intros He. assert (false = true) by (apply H; auto).
    done.
Qed.

Lemma foldl_decodeMember_skip members acc :
  Forall (λ kv, fieldByName kv.1 = None ∨ kv.2 = VNull) members →
  foldl decodeMember acc members = acc.
Proof.
  revert acc. induction members as [|kv members IH]; intros acc Hall;
    [done|].
  apply Forall_cons in Hall as [Hkv Hall]. simpl. rewrite IH by done.
  unfold decodeMember. destruct Hkv as [Hk|Hv].
  - by rewrite Hk.
  - rewrite Hv. by destruct (fieldByName kv.1).
Qed.

Lemma wrongKind_badMember key v :
  is_Some (fieldByName key) → wrongKind v → badMember (key, v).
Proof.
  intros [f Hf] Hv. unfold badMember. simpl. rewrite Hf. by destruct v.
Qed.

(** A field that no member sets keeps the value it had. *)
Lemma foldl_decodeMember_field f members acc :
  Forall (λ kv, fieldByName kv.1 = Some f → kv.2 = VNull) members →
  let p := (foldl decodeMember acc members).1 in
  match f with
  | FLatitude => Latitude p = Latitude acc.1
  | FLongitude => Longitude p = Longitude acc.1
  | FTimestamp => Timestamp p = Timestamp acc.1
  end.
Proof.
  revert acc. induction members as [|kv members IH]; intros acc Hall.
  { by destruct f. }
  apply Forall_cons in Hall as [Hkv Hall]. simpl.
  specialize (IH (decodeMember acc kv) Hall). simpl in IH.
  assert (match f with
          | FLatitude => Latitude (decodeMember acc kv).1 = Latitude acc.1
          | FLongitude => Longitude (decodeMember acc kv).1 = Longitude acc.1
          | FTimestamp => Timestamp (decodeMember acc kv).1 = Timestamp acc.1
          end) as Hstep.
  { unfold decodeMember. destruct (fieldByName kv.1) as [g|] eqn:Hg.
    - destruct kv.2 as [| |n| | |] eqn:Hv; try (by destruct f).
      destruct (storeNumber g n acc.1) as [p'|] eqn:Hs; [|by destruct f].
      simpl. destruct g, f; try (specialize (Hkv eq_refl); done);
        unfold storeNumber in Hs;
        destruct (float64Of n), (ParseInt n); cbn in Hs; try done;
        by injection Hs as <-.
    - by destruct f. }
  destruct f; by rewrite IH.
Qed.

Lemma Decode_field f members d :
  Decode (Some (VObject members)) zeroPosition = Some d →
  Forall (λ kv, fieldByName kv.1 = Some f → kv.2 = VNull) members →
  match f with
  | FLatitude => Latitude d = 0%float
  | FLongitude => Longitude d = 0%float
  | FTimestamp => Timestamp d = 0
  end.
Proof.
  intros Hd Hall. unfold Decode in Hd.
  pose proof (foldl_decodeMember_field f members (zeroPosition, false) Hall)
    as H.
  destruct (foldl decodeMember (zeroPosition, false) members)
    as [p failed]. destruct failed; [done|]. by injection Hd as <-.
Qed.

(** C5, as the code has it. A request that is not a POST gets the 405 and
    a POST whose body does not decode gets the 400, both with the state
    untouched; a POST whose body decodes is not a client error. A body
    decodes when it is [null] or an object in which every member that names
    a field holds a number the field can take or [null]: no body, a body of
    another kind, and a member that names a field with a value of the wrong
    kind or with a number that is no [float64] do not decode. Decoding asks
    for no field: a field that no member sets is 0, so that an object whose
    members name no field or are [null], and [null] itself, decode to the
    zero position; a number under each of the two keys is what the
    position holds. *)
Theorem handlePosition_validation env r st :
  let out := handlePosition env r st in
  let decoded := Decode (Body r) zeroPosition in
  (Method r ≠ MethodPost →
     out = (st, httpError "Method not allowed" 405)) ∧
  (Method r = MethodPost → decoded = None →
     out = (st, httpError "Invalid JSON" 400)) ∧
  (Method r = MethodPost → is_Some decoded →
     if dbDown env then StatusCode out.2 = 500 else StatusCode out.2 = 200) ∧
  (Body r = None → decoded = None) ∧
  (∀ v, Body r = Some v → v ≠ VNull → (∀ members, v ≠ VObject members) →
     decoded = None) ∧
  (∀ members key v,
     Body r = Some (VObject members) → (key, v) ∈ members →
     is_Some (fieldByName key) → wrongKind v → decoded = None) ∧
  (∀ members key n,
     Body r = Some (VObject members) → (key, VNumber n) ∈ members →
     fieldByName key = Some FLatitude ∨ fieldByName key = Some FLongitude →
     float64Of n = None → decoded = None) ∧
  (∀ members d,
     Body r = Some (VObject members) → decoded = Some d →
     (Forall (λ kv, fieldByName kv.1 = Some FLatitude → kv.2 = VNull) members
      → Latitude d = 0%float) ∧
     (Forall (λ kv, fieldByName kv.1 = Some FLongitude → kv.2 = VNull) members
      → Longitude d = 0%float)) ∧
  (∀ members,
     Body r = Some (VObject members) →
     Forall (λ kv, fieldByName kv.1 = None ∨ kv.2 = VNull) members →
     decoded = Some zeroPosition) ∧
  (Body r = Some VNull → decoded = Some zeroPosition) ∧
  (∀ k1 k2 n1 n2 lat lng,
     Body r = Some (VObject [(k1, VNumber n1); (k2, VNumber n2)]) →
     fieldByName k1 = Some FLatitude → fieldByName k2 = Some FLongitude →
     float64Of n1 = Some lat → float64Of n2 = Some lng →
     decoded = Some {| Latitude := lat; Longitude := lng; Timestamp := 0 |}).
Proof.
  intros out decoded. unfold decoded. split_and!.
  - apply handlePosition_wrong_method.
  - apply handlePosition_invalid.
  - intros Hm [d Hd]. unfold out. destruct (dbDown env) eqn:Hdb.
    + by rewrite (handlePosition_store_down env r st d).
    + by rewrite (handlePosition_accepted env r st d).
  - by intros ->.
  - intros v -> Hnull Hobj. destruct v; try done. by destruct (Hobj members).
  - intros members key v -> Hin Hf Hv. apply Decode_object_None.
    apply Exists_exists. exists (key, v). split; [done|].
    by apply wrongKind_badMember.
  - intros members key n -> Hin Hf Hn. apply Decode_object_None.
    apply Exists_exists. exists (key, VNumber n). split; [done|].
    unfold badMember, storeNumber. simpl.
    destruct Hf as [-> | ->]; by rewrite Hn.
  - intros members d -> Hd. split; intros Hall.
    + apply (Decode_field FLatitude members d Hd Hall).
    + apply (Decode_field FLongitude members d Hd Hall).
  - intros members -> Hall. unfold Decode.
    by rewrite foldl_decodeMember_skip.
  - by intros ->.
  - intros k1 k2 n1 n2 lat lng -> H1 H2 Hlat Hlng.
    unfold Decode, decodeMember, storeNumber. simpl.
    by rewrite H1, H2, Hlat, Hlng.
Qed.

Lemma handlePosition_validation_witness :
  handlePosition demoEnv {| Method := "GET"; Body := Body demoPost |}
    demoServer
  = (demoServer, httpError "Method not allowed" 405) ∧
  handlePosition demoEnv {| Method := "POST"; Body := None |} demoServer
  = (demoServer, httpError "Invalid JSON" 400) ∧
  StatusCode (handlePosition demoEnv demoPost demoServer).2 = 200 ∧
  Decode (Body stringLatitudePost) zeroPosition = None ∧
  Decode (Body emptyObjectPost) zeroPosition = Some zeroPosition ∧
  Decode (Body demoPost) zeroPosition = Some berlin.
Proof.
  split_and!.
  - apply (handlePosition_validation demoEnv
             {| Method := "GET"; Body := Body demoPost |} demoServer).
    simpl. discriminate.
  - apply (handlePosition_validation demoEnv
             {| Method := "POST"; Body := None |} demoServer); reflexivity.
  - apply (handlePosition_validation demoEnv demoPost demoServer).
    + reflexivity.
    + eexists. reflexivity.
  - apply (handlePosition_validation demoEnv stringLatitudePost demoServer)
      with (key := "latitude") (v := VString "north")
           (members := [("latitude", VString "north");
                        ("longitude",
                         VNumber {| ParseFloat := Some 13.405%float;
                                    ParseInt := None |})]).
    + reflexivity.
    + apply list_elem_of_here.
    + eexists. reflexivity.
    + exact I.
  - apply (handlePosition_validation demoEnv emptyObjectPost demoServer)
      with (members := []).
    + reflexivity.
    + constructor.
  - apply (handlePosition_validation demoEnv demoPost demoServer)
      with (k1 := "latitude") (k2 := "longitude")
           (n1 := {| ParseFloat := Some 52.52%float; ParseInt := None |})
           (n2 := {| ParseFloat := Some 13.405%float; ParseInt := None |});
      reflexivity.
Defined.

(** C5, as the claim has it, fails: a POST whose body is the empty object
    holds neither field, and it is stored and broadcast as the position
    (0, 0) and answered with 200. *)
Lemma handlePosition_accepts_missing_fields :
  Method emptyObjectPost = MethodPost ∧
  ¬ hasNumber "latitude" (Body emptyObjectPost) ∧
  ¬ hasNumber "longitude" (Body emptyObjectPost) ∧
  (handlePosition demoEnv emptyObjectPost demoServer).2
  = {| StatusCode := 200; ContentType := "application/json";
       Written := Json (JObject [("status", JString "ok")]) |} ∧
  Scan <$> positions (handlePosition demoEnv emptyObjectPost demoServer).1
  = [Some {| Latitude := 0; Longitude := 0; Timestamp := 1700000000 |}] ∧
  delivered (handlePosition demoEnv emptyObjectPost demoServer).1 2%positive
  = [{| Latitude := 0; Longitude := 0; Timestamp := 1700000000 |}].
Proof.
  split_and!; try reflexivity.
  - intros (members & n & [= <-] & Hin). by apply elem_of_nil in Hin.
  - intros (members & n & [= <-] & Hin). by apply elem_of_nil in Hin.
Qed.

(** ** The position store *)

Lemma orderByCreatedAt_chronological rows :
  chronological rows → orderByCreatedAt false rows = rows.
Proof.
  induction rows as [|r rows IH]; intros Hs; [done|].
  apply StronglySorted_cons in Hs as [Hr Hs].
  unfold orderByCreatedAt in *. simpl. rewrite IH by done.
  destruct rows as [|x rows]; [done|]. simpl.
  apply Forall_cons in Hr as [Hx _]. unfold before.
  by rewrite (proj2 (Z.leb_le _ _) Hx).
Qed.

Lemma scanRows_scannable rows acc st :
  scannable rows → scanRows rows acc st = (st, acc ++ omap Scan rows).
Proof.
  revert acc. induction rows as [|r rows IH]; intros acc Hs; simpl.
  - by rewrite (right_id_L [] (++)).
  - apply Forall_cons in Hs as [[p Hp] Hs]. rewrite Hp.
    rewrite IH by done. by rewrite <- (assoc_L (++)).
Qed.

Lemma omap_Scan_length rows :
  scannable rows → length (omap Scan rows) = length rows.
Proof.
  induction 1 as [|r rows [p Hp] _ IH]; [done|].
  simpl. rewrite Hp. simpl. f_equal. exact IH.
Qed.

(** [savePosition] keeps the table scannable, and chronological as long as
    SQLite's clock has not gone back. *)
Lemma savePosition_scannable env p st :
  scannable (positions st) → scannable (positions (savePosition env p st).1).
Proof.
  intros Hs. unfold savePosition. destruct (dbDown env); [done|]. simpl.
  apply Forall_app. split; [done|]. constructor; [|done]. by eexists.
Qed.

Lemma savePosition_chronological env p st :
  chronological (positions st) →
  Forall (λ r, created_at r ≤ CURRENT_TIMESTAMP env) (positions st) →
  chronological (positions (savePosition env p st).1).
Proof.
  intros Hs Hclock. unfold savePosition. destruct (dbDown env); [done|].
  simpl. apply StronglySorted_app. split_and!; [|done|].
  - intros x1 x2 Hx1 ->%list_elem_of_singleton. simpl.
    by eapply Forall_forall in Hclock.
  - repeat constructor.
Qed.

Lemma savePosition_stored env p st :
  dbDown env = false →
  stored (savePosition env p st).1 = stored st ++ [readBack p].
Proof.
  intros Hdb. unfold stored, savePosition. rewrite Hdb. simpl.
  by rewrite omap_app.
Qed.

(** On a table that is not empty, [handleHistory] answers with the array of
    all stored positions in the order of their insertion. *)
Lemma handleHistory_lists_all env r st :
  Method r = MethodGet → dbDown env = false →
  chronological (positions st) → scannable (positions st) →
  positions st ≠ [] →
  handleHistory env r st
  = (st, writeJSON (JArray (marshalPosition <$> stored st))) ∧
  length (stored st) = length (positions st).
Proof.
  intros Hm Hdb Hc Hs Hne. unfold handleHistory.
  rewrite decide_False by (by intros []). rewrite Hdb.
  rewrite orderByCreatedAt_chronological by done.
  rewrite scanRows_scannable by done. simpl. fold (stored st).
  pose proof (omap_Scan_length _ Hs) as Hlen. fold (stored st) in Hlen.
  split; [|done]. unfold marshalPositions.
  destruct (stored st) eqn:Hst; [|done].
  destruct (positions st); done.
Qed.

(** C6 fails on the empty table: a GET of /api/history is answered with
    200 and the body [null], which is not the empty array. *)
Theorem handleHistory_empty_store_null :
  positions emptyServer = [] ∧
  handleHistory demoEnv getRequest emptyServer
  = (emptyServer, writeJSON JNull) ∧
  StatusCode (handleHistory demoEnv getRequest emptyServer).2 = 200 ∧
  Written (handleHistory demoEnv getRequest emptyServer).2 ≠ Json (JArray []).
Proof. split_and!; [reflexivity..|]. simpl. discriminate. Qed.

(** It is so for every state whose table is empty. *)
Lemma handleHistory_empty env r st :
  Method r = MethodGet → dbDown env = false → positions st = [] →
  handleHistory env r st = (st, writeJSON JNull).
Proof.
  intros Hm Hdb Hp. unfold handleHistory.
  rewrite decide_False by (by intros []). by rewrite Hdb, Hp.
Qed.

(** *** The newest row under [ORDER BY created_at DESC] *)

Ltac leb_cases :=
  repeat match goal with
         | |- context [?a <=? ?b] => destruct (Z.leb_spec a b)
         end.

Lemma place_placeLast x r sorted :
  place true x (placeLast r sorted) = placeLast r (place true x sorted).
Proof.
  induction sorted as [|y sorted IH]; simpl; unfold before; simpl.
  - leb_cases; done.
  - leb_cases; simpl; unfold before; leb_cases; try lia; try done.
    by rewrite IH.
Qed.

(** The row inserted last comes behind every row of its second. *)
Lemma orderByCreatedAt_desc_snoc rows r :
  orderByCreatedAt true (rows ++ [r])
  = placeLast r (orderByCreatedAt true rows).
Proof.
  unfold orderByCreatedAt. rewrite foldr_app. simpl.
  induction rows as [|x rows IH]; simpl; [done|].
  by rewrite IH, place_placeLast.
Qed.

Lemma orderByCreatedAt_nil desc rows :
  orderByCreatedAt desc rows = [] → rows = [].
Proof.
  destruct rows as [|r rows]; [done|]. unfold orderByCreatedAt. simpl.
  destruct (foldr (place desc) [] rows); simpl; [done|].
  by destruct (before desc r r0).
Qed.

Lemma orderByCreatedAt_desc_head rows y sorted :
  orderByCreatedAt true rows = y :: sorted →
  Forall (λ x, created_at x ≤ created_at y) rows.
Proof.
  unfold orderByCreatedAt. revert y sorted.
  induction rows as [|a rows IH]; intros y sorted Heq; [constructor|].
  simpl in Heq. destruct (foldr (place true) [] rows) as [|t T] eqn:HT.
  - apply (orderByCreatedAt_nil true) in HT as ->.
    injection Heq as <- _. by repeat constructor.
  - specialize (IH t T eq_refl). simpl in Heq. unfold before in Heq.
    destruct (created_at t <=? created_at a) eqn:Hta.
    + injection Heq as <- _. constructor; [done|].
      eapply Forall_impl; [exact IH|]. simpl. lia.
    + injection Heq as <- _. constructor; [lia|done].
Qed.

(** When some stored row is not older than the row inserted last, the
    first row of the descending order is the one it was before. *)
Lemma take_orderByCreatedAt_desc_stale rows r :
  Exists (λ x, created_at r ≤ created_at x) rows →
  take 1 (orderByCreatedAt true (rows ++ [r]))
  = take 1 (orderByCreatedAt true rows).
Proof.
  intros Hex. rewrite orderByCreatedAt_desc_snoc.
  destruct (orderByCreatedAt true rows) as [|y sorted] eqn:Hs.
  - apply orderByCreatedAt_nil in Hs as ->. by apply Exists_nil in Hex.
  - apply orderByCreatedAt_desc_head in Hs.
    apply Exists_exists in Hex as (x & Hx & Hle).
    eapply Forall_forall in Hs; [|exact Hx]. simpl.
    assert ((created_at r <=? created_at y) = true) as -> by lia. done.
Qed.

(** When every stored row is older than the row inserted last, that row
    is the first of the descending order. *)
Lemma orderByCreatedAt_desc_fresh rows r :
  Forall (λ x, created_at x < created_at r) rows →
  orderByCreatedAt true (rows ++ [r]) = r :: orderByCreatedAt true rows.
Proof.
  intros Hall. rewrite orderByCreatedAt_desc_snoc.
  destruct (orderByCreatedAt true rows) as [|y sorted] eqn:Hs; [done|].
  simpl. assert (y ∈ rows) as Hy.
  { clear Hall. revert y sorted Hs. unfold orderByCreatedAt.
    induction rows as [|a rows IH]; intros y sorted Hs; [done|].
    cbn [foldr] in Hs. destruct (foldr (place true) [] rows) as [|t T].
    - injection Hs as <- _. left.
    - cbn [place] in Hs. destruct (before true a t).
      + injection Hs as <- _. left.
      + injection Hs as <- _. right. by eapply IH. }
  eapply Forall_forall in Hall; [|exact Hy].
  assert ((created_at r <=? created_at y) = false) as -> by lia. done.
Qed.

Lemma handleLastPosition_empty env r st :
  Method r = MethodGet → dbDown env = false → positions st = [] →
  handleLastPosition env r st = (st, writeJSON JNull).
Proof.
  intros Hm Hdb Hp. unfold handleLastPosition.
  rewrite decide_False by (by intros []). by rewrite Hdb, Hp.
Qed.

(** The newest row is returned when it is alone in its second. *)
Lemma handleLastPosition_fresh env r st rows row p :
  Method r = MethodGet → dbDown env = false →
  positions st = rows ++ [row] →
  Forall (λ x, created_at x < created_at row) rows →
  Scan row = Some p →
  handleLastPosition env r st = (st, writeJSON (marshalPosition p)).
Proof.
  intros Hm Hdb Hp Hall Hscan. unfold handleLastPosition.
  rewrite decide_False by (by intros []). rewrite Hdb, Hp.
  rewrite orderByCreatedAt_desc_fresh by done. simpl. by rewrite Hscan.
Qed.

(** It is not returned when an earlier row has the same second, or a
    later one: the answer stays what it was before the insert. *)
Lemma handleLastPosition_stale env r st st' rows row :
  positions st = rows → positions st' = rows ++ [row] →
  Exists (λ x, created_at row ≤ created_at x) rows →
  (handleLastPosition env r st').2 = (handleLastPosition env r st).2.
Proof.
  intros Hp Hp' Hex. unfold handleLastPosition.
  case_decide; [done|]. destruct (dbDown env); [done|].
  rewrite Hp, Hp', take_orderByCreatedAt_desc_stale by done.
  destruct (take 1 (orderByCreatedAt true rows)) as [|x ?]; [done|].
  by destruct (Scan x).
Qed.

(** C7 fails when two positions are stored within one second: after the
    posts of (48.137, 0) and then of (52.52, 13.405), a GET of
    /api/last-position is answered with the first of the two. *)
Theorem handleLastPosition_same_second :
  stored sameSecondServer
  = [{| Latitude := 48.137; Longitude := 0; Timestamp := 1700000000 |};
     {| Latitude := 52.52; Longitude := 13.405; Timestamp := 1700000000 |}] ∧
  created_at <$> positions sameSecondServer = [1700000000; 1700000000] ∧
  (handleLastPosition demoEnv getRequest sameSecondServer).2
  = writeJSON (marshalPosition
      {| Latitude := 48.137; Longitude := 0; Timestamp := 1700000000 |}).
Proof. split_and!; reflexivity. Qed.

(** *** From ingress to the store and back *)

Lemma handlePosition_positions env r st decoded :
  Method r = MethodPost → Decode (Body r) zeroPosition = Some decoded →
  dbDown env = false →
  positions (handlePosition env r st).1
  = positions st
    ++ [{| id := nextId (positions st);
           latitude := Real (sqliteReal (Latitude decoded));
           longitude := Real (sqliteReal (Longitude decoded));
           timestamp := Integer (Now env);
           created_at := CURRENT_TIMESTAMP env |}].
Proof.
  intros Hm Hd Hdb. rewrite (handlePosition_accepted env r st decoded) by done.
  simpl. rewrite broadcastPosition_positions. unfold savePosition.
  by rewrite Hdb.
Qed.

(** The round trip holds when the table has no row of the second in which
    the position is stored, or of a later one. *)
Lemma ingress_round_trip env env' r st decoded :
  Method r = MethodPost → Decode (Body r) zeroPosition = Some decoded →
  dbDown env = false → dbDown env' = false →
  chronological (positions st) → scannable (positions st) →
  Forall (λ x, created_at x < CURRENT_TIMESTAMP env) (positions st) →
  let st' := (handlePosition env r st).1 in
  let p := readBack (withTimestamp (Now env) decoded) in
  (handleLastPosition env' getRequest st').2
  = writeJSON (marshalPosition p) ∧
  (handleHistory env' getRequest st').2
  = writeJSON (JArray (marshalPosition <$> (stored st ++ [p]))).
Proof.
  intros Hm Hd Hdb Hdb' Hc Hs Hnew st' p.
  pose proof (handlePosition_positions env r st decoded Hm Hd Hdb) as Hp.
  fold st' in Hp. set (row := {| id := nextId (positions st) |}) in Hp.
  split.
  - by rewrite (handleLastPosition_fresh env' getRequest st'
                  (positions st) row p).
  - assert (stored st' = stored st ++ [p]) as Hst.
    { unfold stored. by rewrite Hp, omap_app. }
    destruct (handleHistory_lists_all env' getRequest st') as [-> _];
      try done.
    + rewrite Hp. apply StronglySorted_app. split_and!; [|done|].
      * intros x1 x2 Hx1 ->%list_elem_of_singleton. simpl.
        eapply Forall_forall in Hnew; [|exact Hx1]. simpl in Hnew. lia.
      * repeat constructor.
    + rewrite Hp. apply Forall_app. split; [done|].
      constructor; [by eexists | done].
    + rewrite Hp. by destruct (positions st).
    + simpl. by rewrite Hst.
Qed.

(** The handlers leave the table as [savePosition] writes it: every state
    the server reaches from an empty table is scannable, and chronological
    as long as SQLite's clock does not run backwards. *)
Lemma handlePosition_table env r st :
  positions (handlePosition env r st).1 = positions st ∨
  (dbDown env = false ∧
   ∃ p, positions (handlePosition env r st).1
        = positions (savePosition env p st).1).
Proof.
  unfold handlePosition. case_decide; [by left|].
  destruct (Decode (Body r) zeroPosition) as [decoded|]; [|by left].
  destruct (dbDown env) eqn:Hdb.
  - left. unfold savePosition. by rewrite Hdb.
  - right. split; [done|]. exists (withTimestamp (Now env) decoded).
    unfold savePosition. rewrite Hdb. simpl.
    by rewrite broadcastPosition_positions.
Qed.

Lemma handlePosition_scannable env r st :
  scannable (positions st) → scannable (positions (handlePosition env r st).1).
Proof.
  intros Hs. destruct (handlePosition_table env r st) as [->|(_ & p & ->)];
    [done|]. by apply savePosition_scannable.
Qed.

Lemma handlePosition_chronological env r st :
  chronological (positions st) →
  Forall (λ x, created_at x ≤ CURRENT_TIMESTAMP env) (positions st) →
  chronological (positions (handlePosition env r st).1).
Proof.
  intros Hc Hclock.
  destruct (handlePosition_table env r st) as [->|(_ & p & ->)]; [done|].
  by apply savePosition_chronological.
Qed.

(** C8 fails when the table holds a position of the same second: the
    position (52.52, 13.405) is accepted and is the last element of the
    history, and /api/last-position still answers with the older one. *)
Theorem round_trip_same_second :
  let st0 := (handlePosition demoEnv (postLatitude 48.137) emptyServer).1 in
  let older :=
    {| Latitude := 48.137; Longitude := 0; Timestamp := 1700000000 |} in
  let newer :=
    {| Latitude := 52.52; Longitude := 13.405; Timestamp := 1700000000 |} in
  (handlePosition demoEnv demoPost st0).2 = writeJSON statusOk ∧
  (handleLastPosition demoEnv getRequest
     (handlePosition demoEnv demoPost st0).1).2
  = writeJSON (marshalPosition older) ∧
  (handleHistory demoEnv getRequest
     (handlePosition demoEnv demoPost st0).1).2
  = writeJSON (JArray [marshalPosition older; marshalPosition newer]).
Proof. split_and!; reflexivity. Qed.

(** ** The connection lifecycle *)

Lemma readLoop_messages c reads st :
  c ∉ closed st → Forall isMessage reads → readLoop c reads st = (st, false).
Proof.
  intros Hc Hall. induction Hall as [|rd reads Hrd _ IH]; simpl; [done|].
  rewrite decide_False by done. by destruct rd.
Qed.

Lemma readLoop_error c msgs rest st :
  c ∉ closed st → Forall isMessage msgs →
  readLoop c (msgs ++ ReadError :: rest) st = (logPrintf ReadFailed st, true).
Proof.
  intros Hc Hall. induction Hall as [|rd reads Hrd _ IH]; simpl.
  - by rewrite decide_False.
  - rewrite decide_False by done. by destruct rd.
Qed.

Lemma readLoop_state c reads st :
  readLoop c reads st = (st, false) ∨
  readLoop c reads st = (logPrintf ReadFailed st, true).
Proof.
  induction reads as [|rd reads IH]; simpl; [by left|].
  case_decide; [by right|]. destruct rd; [done|by right].
Qed.

(** Once the server has closed the transport, as [broadcastPosition] does
    after a failed write, the next read fails and the loop is left. *)
Lemma readLoop_closed c rd reads st :
  c ∈ closed st →
  readLoop c (rd :: reads) st = (logPrintf ReadFailed st, true).
Proof. intros Hc. simpl. by rewrite decide_True. Qed.

(** The loop is left exactly when the script holds a failing read. *)
Lemma readLoop_left_iff c reads st :
  c ∉ closed st →
  (readLoop c reads st).2 = true ↔ ¬ Forall isMessage reads.
Proof.
  intros Hc. induction reads as [|rd reads IH]; simpl.
  - split; [done|]. intros H. by destruct H.
  - rewrite decide_False by done. destruct rd; simpl.
    + rewrite IH, Forall_cons. simpl. tauto.
    + split; [|done]. intros _ H. by apply Forall_cons in H as [? _].
Qed.

(** C9. A failed upgrade leaves the registry, the transports and the table
    as they were, with one line logged. After a successful upgrade of a new
    connection [c] the handler is in one of two states. As long as every
    read gives a message it is open: [c] is registered and its transport is
    not closed. At the first read that fails, whatever was read before and
    whatever would come after, it is closed: [c] is out of the registry
    and its transport is closed. No other connection is touched. *)
Theorem handleWebSocket_lifecycle st :
  (∀ reads,
     handleWebSocket None reads st = (logPrintf UpgradeFailed st, Aborted) ∧
     connections (logPrintf UpgradeFailed st) = connections st ∧
     closed (logPrintf UpgradeFailed st) = closed st ∧
     positions (logPrintf UpgradeFailed st) = positions st) ∧
  (∀ c reads,
     c ∉ closed st →
     let st' := (handleWebSocket (Some c) reads st).1 in
     let state := (handleWebSocket (Some c) reads st).2 in
     (Forall isMessage reads →
        state = Open c ∧ registered st' c ∧ c ∉ closed st') ∧
     (∀ msgs rest,
        Forall isMessage msgs → reads = msgs ++ ReadError :: rest →
        state = Closed c ∧ ¬ registered st' c ∧ c ∈ closed st' ∧
        trace st'
        = [Close c; Log ReadFailed; Log (ClientConnected c)] ++ trace st) ∧
     (state = Open c ∨ state = Closed c) ∧
     (∀ c', c' ≠ c → view st' c' = view st c')).
Proof.
  split; [done|]. intros c reads Hc st' state.
  assert (c ∉ closed (register c (logPrintf (ClientConnected c) st)))
    as Hc' by done.
  split_and!.
  - intros Hall. unfold state, st', handleWebSocket.
    rewrite readLoop_messages by done. simpl. split_and!; [done| |done].
    apply elem_of_dom. simpl. rewrite lookup_insert_eq. by eexists.
  - intros msgs rest Hall ->. unfold state, st', handleWebSocket.
    rewrite readLoop_error by done. simpl. split_and!; [done| | |done].
    + apply not_elem_of_dom. simpl. apply lookup_delete_eq.
    + simpl. by apply elem_of_union_l, elem_of_singleton_2.
  - unfold state, handleWebSocket.
    destruct (readLoop c reads _) as [st3 []]; auto.
  - intros c' Hne. unfold st', handleWebSocket.
    destruct (readLoop_state c reads
                (register c (logPrintf (ClientConnected c) st))) as [->| ->].
    + unfold view, delivered; simpl. by rewrite lookup_insert_ne.
    + unfold view, delivered; simpl.
      rewrite lookup_delete_ne, lookup_insert_ne by done.
      repeat f_equal. apply bool_decide_ext.
      rewrite elem_of_union, elem_of_singleton.
      split; [intros [->|?]; done | auto].
Qed.

Lemma handleWebSocket_lifecycle_witness :
  handleWebSocket None [] demoServer
  = (logPrintf UpgradeFailed demoServer, Aborted) ∧
  (handleWebSocket (Some 3%positive) [Message "ping"; Message "pong"]
     demoServer).2 = Open 3%positive ∧
  ((handleWebSocket (Some 3%positive)
      [Message "ping"; ReadError; Message "late"] demoServer).2
   = Closed 3%positive ∧
   ¬ registered
       (handleWebSocket (Some 3%positive)
          [Message "ping"; ReadError; Message "late"] demoServer).1
       3%positive).
Proof.
  destruct (handleWebSocket_lifecycle demoServer) as [Hfail Hok].
  split_and!.
  - apply Hfail.
  - apply (Hok 3%positive [Message "ping"; Message "pong"]).
    + apply not_elem_of_empty.
    + repeat constructor.
  - apply (Hok 3%positive [Message "ping"; ReadError; Message "late"]
             (not_elem_of_empty _))
      with (msgs := [Message "ping"]) (rest := [Message "late"]).
    + repeat constructor.
    + reflexivity.
  - apply (Hok 3%positive [Message "ping"; ReadError; Message "late"]
             (not_elem_of_empty _))
      with (msgs := [Message "ping"]) (rest := [Message "late"]).
    + repeat constructor.
    + reflexivity.
Defined.

(** ** A dead connection stays out *)

Lemma view_scanRows rows acc st c :
  view (scanRows rows acc st).1 c = view st c.
Proof.
  revert acc st. induction rows as [|r rows IH]; intros acc st; [done|].
  simpl. destruct (Scan r); rewrite IH; [done|].
  by apply view_emit_other.
Qed.

Lemma view_handleWebSocket_other upgrade reads st c :
  upgrade ≠ Some c → view (handleWebSocket upgrade reads st).1 c = view st c.
Proof.
  intros Hne. destruct upgrade as [c'|]; simpl.
  - assert (c' ≠ c) as Hc by congruence.
    destruct (readLoop_state c' reads
                (register c' (logPrintf (ClientConnected c') st)))
      as [->| ->]; unfold view, delivered; simpl.
    + by rewrite lookup_insert_ne.
    + rewrite lookup_delete_ne, lookup_insert_ne by done.
      repeat f_equal. apply bool_decide_ext.
      rewrite elem_of_union, elem_of_singleton.
      split; [intros [->|?]; done | auto].
  - by apply view_emit_other.
Qed.

(** No handler but an upgrade registers a connection, and none writes to a
    connection that is not registered. *)
Lemma view_serve_unregistered st call c :
  ¬ registered st c → ¬ upgrades c call → view (serve st call) c = view st c.
Proof.
  intros Hr Hup. destruct call as [env r|env r|env r|env r|upgrade reads];
    simpl.
  - unfold handlePosition. case_decide; [done|].
    destruct (Decode (Body r) zeroPosition) as [decoded|]; [|done].
    unfold savePosition. destruct (dbDown env); simpl.
    + by apply view_emit_other.
    + unfold logPrintf. rewrite view_emit_other by done.
      rewrite view_broadcastPosition, view_emit_other by done.
      apply fate_unregistered. by apply view_unregistered.
  - unfold handleHistory. case_decide; [done|].
    destruct (dbDown env); [by apply view_emit_other|].
    pose proof (view_scanRows (orderByCreatedAt false (positions st)) [] st c)
      as Hv.
    by destruct (scanRows _ _ _).
  - unfold handleLastPosition. case_decide; [done|].
    destruct (dbDown env); [by apply view_emit_other|].
    destruct (take 1 _) as [|row ?]; [done|].
    destruct (Scan row); [done|]. by apply view_emit_other.
  - done.
  - apply view_handleWebSocket_other. intros ->. by apply Hup.
Qed.

Lemma view_serveAll_unregistered calls st c :
  ¬ registered st c → Forall (λ call, ¬ upgrades c call) calls →
  view (serveAll calls st) c = view st c.
Proof.
  intros Hr Hcalls. revert st Hr.
  induction Hcalls as [|call calls Hcall _ IH]; intros st Hr; [done|].
  unfold serveAll in *. simpl.
  pose proof (view_serve_unregistered st call c Hr Hcall) as Hone.
  rewrite IH, Hone; [done|].
  apply view_unregistered. rewrite Hone. by apply view_unregistered.
Qed.

(** C1. In a broadcast over the registry, a connection [c] whose write
    fails is closed and taken out of the registry, every other connection
    that takes the write gets the position in that same call and stays
    registered, and no later broadcast finds [c] or writes to it; nor does
    any later call of a handler, short of an upgrade that returns [c]
    itself. *)
Theorem broadcast_failure_isolated env position st c :
  registered st c → ¬ writable env st c →
  let st' := broadcastPosition env position st in
  (¬ registered st' c ∧ c ∈ closed st') ∧
  (∀ c', registered st c' → writable env st c' →
     registered st' c' ∧ (c' ∉ closed st') ∧
     delivered st' c' = position :: delivered st c') ∧
  (∀ calls,
     ¬ registered (broadcasts calls st') c ∧
     delivered (broadcasts calls st') c = delivered st c) ∧
  (∀ calls,
     Forall (λ call, ¬ upgrades c call) calls →
     ¬ registered (serveAll calls st') c ∧
     delivered (serveAll calls st') c = delivered st c).
Proof.
  intros Hr Hw st'.
  assert (view st' c = (None, true, delivered st c)) as Hc.
  { unfold st'. rewrite view_broadcastPosition. unfold fate.
    apply elem_of_dom in Hr as [b Hb]. simpl. rewrite Hb.
    rewrite decide_False; [done|]. intros [Hcl Hg]. apply Hw.
    split; [|done]. by apply bool_decide_eq_false in Hcl. }
  assert (¬ registered st' c) as Hgone.
  { apply view_unregistered. by rewrite Hc. }
  split_and!.
  - done.
  - apply view_inv in Hc as (_ & Hcl & _). by apply Hcl.
  - intros c' Hr' [Hcl' Hg'].
    assert (view st' c' = (connections st !! c', false,
                           position :: delivered st c')) as Hv.
    { unfold st'. rewrite view_broadcastPosition. unfold fate.
      apply elem_of_dom in Hr' as [b Hb]. simpl. rewrite Hb.
      rewrite decide_True by (by rewrite bool_decide_eq_false).
      by rewrite bool_decide_eq_false_2. }
    apply view_inv in Hv as (Hm & Hcl & Hd). split_and!; [|  |done].
    + unfold registered. apply elem_of_dom. rewrite Hm.
      by apply elem_of_dom.
    + intros Hin. by apply Hcl in Hin.
  - intros calls.
    pose proof (view_broadcasts_unregistered calls st' c Hgone) as Hv.
    rewrite Hc in Hv. apply view_inv in Hv as (Hm & _ & Hd). split; [|done].
    unfold registered. by apply not_elem_of_dom.
  - intros calls Hcalls.
    pose proof (view_serveAll_unregistered calls st' c Hgone Hcalls) as Hv.
    rewrite Hc in Hv. apply view_inv in Hv as (Hm & _ & Hd). split; [|done].
    unfold registered. by apply not_elem_of_dom.
Qed.

Lemma broadcast_failure_isolated_witness :
  let st' := broadcastPosition demoEnv berlin demoServer in
  (¬ registered st' 1%positive ∧ 1%positive ∈ closed st') ∧
  (∀ c', registered demoServer c' → writable demoEnv demoServer c' →
     registered st' c' ∧ (c' ∉ closed st') ∧
     delivered st' c' = berlin :: delivered demoServer c') ∧
  (∀ calls,
     ¬ registered (broadcasts calls st') 1%positive ∧
     delivered (broadcasts calls st') 1%positive
     = delivered demoServer 1%positive) ∧
  (∀ calls,
     Forall (λ call, ¬ upgrades 1%positive call) calls →
     ¬ registered (serveAll calls st') 1%positive ∧
     delivered (serveAll calls st') 1%positive
     = delivered demoServer 1%positive).
Proof.
  apply (broadcast_failure_isolated demoEnv berlin demoServer 1%positive).
  - apply elem_of_dom. exists true. reflexivity.
  - intros [_ Hg]. contradict Hg. simpl. apply elem_of_singleton_2.
    reflexivity.
Defined.

Example broadcast_demo :
  let st' := broadcastPosition demoEnv berlin demoServer in
  elements (dom (connections st')) = [2%positive] ∧
  delivered st' 2%positive = [berlin] ∧ delivered st' 1%positive = [].
Proof. vm_compute. done. Qed.

(** ** The configuration endpoint *)

(** C10. [handleConfig] does not look at the request: whatever the method,
    it leaves the state alone and answers 200 with the object whose one
    member [mapStyle] is the style from the environment, or the default
    when that is empty. The other endpoints answer a method that is not
    theirs with 405. *)
Theorem handleConfig_any_method env r st :
  (∃ style,
     handleConfig env r st
     = (st, {| StatusCode := 200; ContentType := "application/json";
               Written := Json (JObject [("mapStyle", JString style)]) |}) ∧
     (MAP_STYLE env ≠ "" → style = MAP_STYLE env) ∧
     (MAP_STYLE env = "" → style = defaultMapStyle)) ∧
  (∀ r', handleConfig env r' st = handleConfig env r st) ∧
  (Method r ≠ MethodGet →
     StatusCode (handleHistory env r st).2 = 405 ∧
     StatusCode (handleLastPosition env r st).2 = 405) ∧
  (Method r ≠ MethodPost → StatusCode (handlePosition env r st).2 = 405).
Proof.
  split_and!.
  - exists (if decide (MAP_STYLE env = "") then defaultMapStyle
            else MAP_STYLE env).
    split; [done|]. case_decide; split; intros; done.
  - done.
  - intros Hm. unfold handleHistory, handleLastPosition.
    by rewrite !decide_True.
  - intros Hm. by rewrite handlePosition_wrong_method.
Qed.

Lemma handleConfig_any_method_witness :
  (handleConfig demoEnv deleteRequest demoServer).2
  = writeJSON (JObject [("mapStyle", JString defaultMapStyle)]) ∧
  StatusCode (handleHistory demoEnv deleteRequest demoServer).2 = 405 ∧
  StatusCode (handleLastPosition demoEnv deleteRequest demoServer).2 = 405 ∧
  StatusCode (handlePosition demoEnv deleteRequest demoServer).2 = 405.
Proof.
  destruct (handleConfig_any_method demoEnv deleteRequest demoServer)
    as ((style & Hcfg & _ & Hdefault) & _ & Hget & Hpost).
  split_and!.
  - rewrite Hcfg. by rewrite (Hdefault eq_refl).
  - apply Hget. discriminate.
  - apply Hget. discriminate.
  - apply Hpost. discriminate.
Defined.

(** ** Goroutines and the lock *)

Section Lock.
Import Concurrent.
Local Open Scope nat_scope.

Lemma count_insert f gs i g g' :
  gs !! i = Some g →
  count f (<[i := g']> gs) + (if f g then 1 else 0)
  = count f gs + (if f g' then 1 else 0).
Proof.
  revert i. induction gs as [|h gs IH]; intros i Hi; [done|].
  destruct i as [|i]; simpl in *.
  - injection Hi as ->. lia.
  - specialize (IH i Hi). lia.
Qed.

Lemma count_zero f gs j h :
  count f gs = 0 → gs !! j = Some h → f h = false.
Proof.
  revert j. induction gs as [|g gs IH]; intros j Hc Hj; [done|].
  simpl in Hc. destruct j as [|j]; simpl in Hj.
  - injection Hj as ->. destruct (f h); [lia|done].
  - eapply IH; [lia|done].
Qed.

Lemma count_outside f gs :
  Forall (λ g, f g = false) gs → count f gs = 0.
Proof. induction 1 as [|g gs Hg _ IH]; simpl; [done|]. by rewrite Hg, IH. Qed.

Lemma lockInvariant_initial st gs :
  Forall outside gs → lockInvariant (initial st gs).
Proof.
  intros Hall. unfold lockInvariant; simpl.
  rewrite !count_outside; [done|..];
    (eapply Forall_impl; [exact Hall|]); by intros g [? ?].
Qed.

(** Every step keeps the promise of the lock. *)
Lemma lockInvariant_step i rd s s' :
  lockInvariant s → step i rd s = Some s' → lockInvariant s'.
Proof.
  intros (Hr & Hx & Hw) Hstep. unfold step in Hstep.
  destruct (goroutines s !! i) as [g|] eqn:Hg; [|done]. simpl in Hstep.
  destruct (advance g rd (server s) (connMutex s)) as [[[st m] g']|] eqn:Ha;
    [|done].
  injection Hstep as <-. unfold lockInvariant; simpl.
  pose proof (count_insert iterating _ i g g' Hg) as Hci.
  pose proof (count_insert exclusive _ i g g' Hg) as Hcx.
  destruct (connMutex s) as [n w]. simpl in *.
  destruct g as [env p|env p [|c keys]|c|c|c|c|c|]; simpl in Ha;
    unfold RLock, Lock in Ha; simpl in Ha.
  - destruct w; [done|]. injection Ha as <- <- <-. simpl in *.
    split_and!; [lia|lia|done].
  - injection Ha as <- <- <-. simpl in *. destruct w; split_and!; lia.
  - injection Ha as <- <- <-. simpl in *. destruct w; split_and!; lia.
  - destruct w; [done|]. destruct n; [|done].
    injection Ha as <- <- <-. simpl in *. split_and!; lia.
  - injection Ha as <- <- <-. simpl in *.
    destruct w; split_and!; try lia; done.
  - case_decide; [|destruct rd]; injection Ha as <- <- <-; simpl in *;
      destruct w; split_and!; lia.
  - destruct w; [done|]. destruct n; [|done].
    injection Ha as <- <- <-. simpl in *. split_and!; lia.
  - injection Ha as <- <- <-. simpl in *.
    destruct w; split_and!; try lia; done.
  - done.
Qed.

Lemma lockInvariant_run schedule s s' :
  lockInvariant s → run schedule s = Some s' → lockInvariant s'.
Proof.
  revert s. induction schedule as [|[i rd] schedule IH]; intros s Hinv Hrun.
  - by injection Hrun as <-.
  - simpl in Hrun. destruct (step i rd s) as [s1|] eqn:Hstep; [|done].
    eapply IH; [|exact Hrun]. by eapply lockInvariant_step.
Qed.

(** The deferred function of [handleWebSocket] deletes under [Lock]: in
    every state the handlers can reach, the goroutine that is about to
    delete there has no goroutine in the loop beside it. *)
Lemma deferred_delete_is_alone st gs schedule s i c :
  Forall outside gs →
  run schedule (initial st gs) = Some s →
  goroutines s !! i = Some (WsDeleting c) →
  ¬ deleteDuringIteration s i.
Proof.
  intros Hgs Hrun Hi (g & c' & j & h & _ & _ & _ & Hj & Hit).
  pose proof (lockInvariant_run _ _ _ (lockInvariant_initial st gs Hgs) Hrun)
    as (_ & Hx & Hw).
  pose proof (count_insert exclusive _ i _ Returned Hi) as Hcx. simpl in Hcx.
  destruct (writer (connMutex s)); [|lia].
  rewrite (count_zero iterating _ j h (Hw eq_refl) Hj) in Hit. done.
Qed.

(** C2 fails when two calls of [broadcastPosition] overlap. Both take the
    read lock; the first writes to connection 2, then finds the dead
    connection 1 and deletes it from [connections], while the second is
    inside its loop over the same map with both keys still to come. *)
Theorem broadcast_deletes_during_iteration :
  ∃ s s',
    run [(0, ReadError); (1, ReadError); (0, ReadError)] twoBroadcasts
    = Some s ∧
    connMutex s = {| readers := 2; writer := false |} ∧
    goroutines s
    = [Ranging demoEnv berlin [1%positive];
       Ranging demoEnv berlin [2%positive; 1%positive]] ∧
    deleteDuringIteration s 0 ∧
    step 0 ReadError s = Some s' ∧
    ¬ registered (server s') 1%positive ∧
    connMutex s' = {| readers := 2; writer := false |} ∧
    goroutines s' !! 1
    = Some (Ranging demoEnv berlin [2%positive; 1%positive]).
Proof.
  eexists. eexists. split_and!.
  - vm_compute. reflexivity.
  - reflexivity.
  - reflexivity.
  - exists (Ranging demoEnv berlin [1%positive]), 1%positive, 1,
      (Ranging demoEnv berlin [2%positive; 1%positive]).
    split_and!; [reflexivity|vm_compute; reflexivity|lia|reflexivity..].
  - vm_compute. reflexivity.
  - apply not_elem_of_dom. vm_compute. reflexivity.
  - reflexivity.
  - reflexivity.
Qed.

End Lock.

(** * More about the code *)

(** ** What a broadcast leaves behind *)

(** The three things a broadcast can do to a connection. *)
Lemma broadcast_cases env p st c :
  let st' := broadcastPosition env p st in
  (¬ registered st c ∧ view st' c = view st c) ∨
  (registered st c ∧ writable env st c ∧
   view st' c = (connections st !! c, false, p :: delivered st c)) ∨
  (registered st c ∧ ¬ writable env st c ∧
   view st' c = (None, true, delivered st c)).
Proof.
  intros st'. unfold st'. rewrite view_broadcastPosition.
  destruct (decide (c ∈ dom (connections st))) as [Hr|Hr].
  - right. pose proof Hr as [b Hb]%elem_of_dom.
    unfold fate, view at 1 2 3 5 7; simpl. rewrite Hb.
    destruct (decide ((c ∉ closed st) ∧ (c ∉ peerGone env))) as [Hw|Hw].
    + left. destruct Hw as [Hcl Hg].
      rewrite decide_True by (by rewrite bool_decide_eq_false).
      by rewrite bool_decide_eq_false_2.
    + right. rewrite decide_False; [done|]. intros [Hcl Hg]. apply Hw.
      split; [|done]. by apply bool_decide_eq_false in Hcl.
  - left. split; [done|]. apply fate_unregistered.
    by apply view_unregistered.
Qed.

(** X1. After a broadcast the registry holds exactly the connections that
    were registered and took the write, each with the entry it had; the
    closed transports are those closed before and those of the registered
    connections whose write failed; the table is as it was. *)
Theorem broadcast_registry_exact env position st c :
  let st' := broadcastPosition env position st in
  (registered st' c ↔ registered st c ∧ writable env st c) ∧
  (c ∈ closed st' ↔
   c ∈ closed st ∨ (registered st c ∧ ¬ writable env st c)) ∧
  (registered st' c → connections st' !! c = connections st !! c) ∧
  positions st' = positions st.
Proof.
  intros st'. split_and!; [..|apply broadcastPosition_positions].
  - destruct (broadcast_cases env position st c)
      as [[Hr Hv]|[(Hr & Hw & Hv)|(Hr & Hw & Hv)]]; fold st' in Hv.
    + split; [|tauto]. intros Hr'. exfalso. revert Hr'.
      apply view_unregistered. rewrite Hv. by apply view_unregistered.
    + split; [done|]. intros _. apply view_inv in Hv as (Hm & _).
      apply elem_of_dom. rewrite Hm. by apply elem_of_dom.
    + split; [|tauto]. intros Hr'. exfalso. revert Hr'.
      apply view_unregistered. by rewrite Hv.
  - destruct (broadcast_cases env position st c)
      as [[Hr Hv]|[(Hr & Hw & Hv)|(Hr & Hw & Hv)]]; fold st' in Hv.
    + assert (bool_decide (c ∈ closed st') = bool_decide (c ∈ closed st))
        as Hb by (by injection Hv).
      assert (c ∈ closed st' ↔ c ∈ closed st) as Hiff.
      { rewrite <- (bool_decide_eq_true (c ∈ closed st')),
          <- (bool_decide_eq_true (c ∈ closed st)). by rewrite Hb. }
      tauto.
    + apply view_inv in Hv as (_ & Hcl & _).
      split; [intros H; by apply Hcl in H|].
      intros [H|[_ H]]; [by destruct Hw | done].
    + apply view_inv in Hv as (_ & Hcl & _). split; [auto|].
      intros _. by apply Hcl.
  - intros Hr'.
    destruct (broadcast_cases env position st c)
      as [[Hr Hv]|[(Hr & Hw & Hv)|(Hr & Hw & Hv)]]; fold st' in Hv.
    + by injection Hv.
    + by apply view_inv in Hv as (Hm & _).
    + exfalso. revert Hr'. apply view_unregistered. by rewrite Hv.
Qed.

Lemma broadcast_registry_exact_witness :
  let st' := broadcastPosition demoEnv berlin demoServer in
  (registered st' 1%positive ↔
   registered demoServer 1%positive ∧ writable demoEnv demoServer 1%positive) ∧
  (1%positive ∈ closed st' ↔
   1%positive ∈ closed demoServer ∨
   (registered demoServer 1%positive ∧
    ¬ writable demoEnv demoServer 1%positive)) ∧
  (registered st' 1%positive →
   connections st' !! 1%positive = connections demoServer !! 1%positive) ∧
  positions st' = positions demoServer.
Proof. apply (broadcast_registry_exact demoEnv berlin demoServer). Defined.

(** X2. A broadcast writes the position once to every registered
    connection that takes the write, and nothing to any other connection:
    not to one that is not registered, and not to one whose write fails. *)
Theorem broadcast_delivers_once env position st c :
  let st' := broadcastPosition env position st in
  (registered st c → writable env st c →
     delivered st' c = position :: delivered st c) ∧
  (¬ (registered st c ∧ writable env st c) →
     delivered st' c = delivered st c).
Proof.
  intros st'.
  destruct (broadcast_cases env position st c)
    as [[Hr Hv]|[(Hr & Hw & Hv)|(Hr & Hw & Hv)]]; fold st' in Hv.
  - split; [done|]. intros _. by injection Hv.
  - apply view_inv in Hv as (_ & _ & Hd). split; [done|]. tauto.
  - apply view_inv in Hv as (_ & _ & Hd). split; [done|]. done.
Qed.

Lemma broadcast_delivers_once_witness :
  delivered (broadcastPosition demoEnv berlin demoServer) 2%positive
  = [berlin] ∧
  delivered (broadcastPosition demoEnv berlin demoServer) 1%positive = [] ∧
  delivered (broadcastPosition demoEnv berlin demoServer) 7%positive = [].
Proof.
  split_and!.
  - apply (broadcast_delivers_once demoEnv berlin demoServer 2%positive).
    + apply elem_of_dom. exists true. reflexivity.
    + split.
      * apply not_elem_of_empty.
      * simpl. intros H. apply elem_of_singleton in H. discriminate.
  - apply (broadcast_delivers_once demoEnv berlin demoServer 1%positive).
    intros [_ [_ Hg]]. contradict Hg. simpl. apply elem_of_singleton_2.
    reflexivity.
  - apply (broadcast_delivers_once demoEnv berlin demoServer 7%positive).
    intros [Hr _]. apply elem_of_dom in Hr as [b Hb]. discriminate.
Defined.

Lemma range_all_writable env p keys st :
  (∀ c, registered st c → writable env st c) →
  connections (range keys (visit env p) st) = connections st ∧
  closed (range keys (visit env p) st) = closed st.
Proof.
  revert st. induction keys as [|k keys IH]; intros st Hall; simpl; [done|].
  case_decide as Hk; [|by apply IH].
  rewrite visit_writable by (by apply Hall).
  destruct (IH (emit (Write k p) st)) as [-> ->]; done.
Qed.

(** X3. One broadcast prunes the registry for good: a second broadcast
    under the same conditions removes nobody, closes nothing, and reaches
    every connection the first one left in the registry. *)
Theorem broadcast_prunes_in_one_pass env p p' st :
  let st1 := broadcastPosition env p st in
  let st2 := broadcastPosition env p' st1 in
  connections st2 = connections st1 ∧
  closed st2 = closed st1 ∧
  (∀ c, registered st1 c → delivered st2 c = p' :: delivered st1 c).
Proof.
  intros st1 st2.
  assert (∀ c, registered st1 c → writable env st1 c) as Hall.
  { intros c Hr.
    destruct (broadcast_cases env p st c)
      as [[Hr0 Hv]|[(Hr0 & Hw & Hv)|(Hr0 & Hw & Hv)]]; fold st1 in Hv.
    - exfalso. revert Hr. apply view_unregistered. rewrite Hv.
      by apply view_unregistered.
    - apply view_inv in Hv as (_ & Hcl & _). destruct Hw as [_ Hg].
      split; [|done]. intros H. by apply Hcl in H.
    - exfalso. revert Hr. apply view_unregistered. by rewrite Hv. }
  destruct (range_all_writable env p' (elements (dom (connections st1))) st1
              Hall) as [Hc Hcl].
  split_and!; [done..|]. intros c Hr.
  destruct (broadcast_cases env p' st1 c)
    as [[Hr0 _]|[(_ & _ & Hv)|(_ & Hw & _)]].
  - done.
  - by apply view_inv in Hv as (_ & _ & Hd).
  - exfalso. by apply Hw, Hall.
Qed.

Lemma broadcast_prunes_in_one_pass_witness :
  let st1 := broadcastPosition demoEnv berlin demoServer in
  let st2 := broadcastPosition demoEnv zeroPosition st1 in
  connections st2 = connections st1 ∧
  closed st2 = closed st1 ∧
  (∀ c, registered st1 c → delivered st2 c = zeroPosition :: delivered st1 c).
Proof.
  apply (broadcast_prunes_in_one_pass demoEnv berlin zeroPosition demoServer).
Defined.

(** X4. The order in which the map iteration yields the keys makes no
    difference to what a broadcast leaves behind: for every enumeration of
    the registry without repetition, the registry, the closed transports,
    the table and what each connection was sent are the same. *)
Theorem broadcast_any_order env p keys st :
  NoDup keys → (∀ k, k ∈ keys ↔ registered st k) →
  let a := broadcastPosition_in keys env p st in
  let b := broadcastPosition env p st in
  connections a = connections b ∧ closed a = closed b ∧
  positions a = positions b ∧ (∀ c, delivered a c = delivered b c).
Proof.
  intros Hnd Hkeys a b.
  assert (∀ c, view a c = view b c) as Hview.
  { intros c. unfold a, b. rewrite view_broadcastPosition.
    unfold broadcastPosition_in. apply view_range; [done|]. apply Hkeys. }
  split_and!.
  - apply map_eq. intros c. specialize (Hview c). by injection Hview.
  - apply set_eq. intros c. specialize (Hview c).
    assert (bool_decide (c ∈ closed a) = bool_decide (c ∈ closed b)) as Hb
      by (by injection Hview).
    rewrite <- (bool_decide_eq_true (c ∈ closed a)),
      <- (bool_decide_eq_true (c ∈ closed b)). by rewrite Hb.
  - unfold a, b, broadcastPosition, broadcastPosition_in.
    by rewrite !range_positions.
  - intros c. specialize (Hview c). by injection Hview.
Qed.

Lemma broadcast_any_order_witness :
  let a := broadcastPosition_in [1%positive; 2%positive] demoEnv berlin
             demoServer in
  let b := broadcastPosition demoEnv berlin demoServer in
  connections a = connections b ∧ closed a = closed b ∧
  positions a = positions b ∧ (∀ c, delivered a c = delivered b c).
Proof.
  apply (broadcast_any_order demoEnv berlin [1%positive; 2%positive]
           demoServer).
  - apply NoDup_cons. split.
    + intros H. apply list_elem_of_singleton in H. discriminate.
    + apply NoDup_singleton.
  - intros k. unfold registered. simpl.
    rewrite dom_insert_L, dom_singleton_L.
    rewrite !elem_of_cons, elem_of_union, !elem_of_singleton.
    rewrite elem_of_nil. tauto.
Defined.

(** ** Registered connections are open *)

Lemma healthy_view st :
  healthy st ↔ ∀ c, (view st c).1.1 = None ∨ (view st c).1.2 = false.
Proof.
  unfold healthy, registered, view; simpl. split; intros H c.
  - destruct (connections st !! c) as [b|] eqn:Hb; [|by left]. right.
    apply bool_decide_eq_false. apply H. apply elem_of_dom. by eexists.
  - intros [b Hb]%elem_of_dom. destruct (H c) as [Hn|Hf].
    + congruence.
    + by apply bool_decide_eq_false in Hf.
Qed.

Lemma fate_open env p c v :
  (fate env p c v).1.1 = None ∨ (fate env p c v).1.2 = false.
Proof.
  unfold fate. destruct v.1.1 eqn:Hv; [|by left].
  case_decide as H; simpl; [|by left]. right. by destruct H.
Qed.

(** What [handlePosition] does to a connection is nothing, or what the
    broadcast of a position does. *)
Lemma view_handlePosition env r st c :
  view (handlePosition env r st).1 c = view st c ∨
  ∃ p, view (handlePosition env r st).1 c = fate env p c (view st c).
Proof.
  unfold handlePosition. case_decide; [by left|].
  destruct (Decode (Body r) zeroPosition) as [decoded|]; [|by left].
  unfold savePosition. destruct (dbDown env); simpl.
  - left. by apply view_emit_other.
  - right. exists (withTimestamp (Now env) decoded).
    unfold logPrintf. rewrite view_emit_other by done.
    by rewrite view_broadcastPosition, view_emit_other.
Qed.

(** The three handlers that only read. *)
Lemma view_handleHistory env r st c :
  view (handleHistory env r st).1 c = view st c.
Proof.
  unfold handleHistory. case_decide; [done|].
  destruct (dbDown env); [by apply view_emit_other|].
  pose proof (view_scanRows (orderByCreatedAt false (positions st)) [] st c)
    as Hv.
  by destruct (scanRows _ _ _).
Qed.

Lemma view_handleLastPosition env r st c :
  view (handleLastPosition env r st).1 c = view st c.
Proof.
  unfold handleLastPosition. case_decide; [done|].
  destruct (dbDown env); [by apply view_emit_other|].
  destruct (take 1 _) as [|row ?]; [done|].
  destruct (Scan row); [done|]. by apply view_emit_other.
Qed.

(** X5. Every handler keeps the registry free of closed transports: if no
    registered connection is closed before a call, none is after it, as
    long as an upgrade hands out a connection that was not closed before. *)
Theorem serve_keeps_registered_open st call :
  healthy st → freshUpgrade st call → healthy (serve st call).
Proof.
  rewrite !healthy_view. intros Hst Hfresh c.
  destruct call as [env r|env r|env r|env r|upgrade reads]; cbn [serve].
  - destruct (view_handlePosition env r st c) as [->|[p ->]]; [done|].
    apply fate_open.
  - by rewrite view_handleHistory.
  - by rewrite view_handleLastPosition.
  - done.
  - destruct (decide (upgrade = Some c)) as [->|Hne];
      [|by rewrite view_handleWebSocket_other].
    simpl in Hfresh. unfold handleWebSocket.
    destruct (readLoop_state c reads
                (register c (logPrintf (ClientConnected c) st)))
      as [->| ->]; unfold view; simpl.
    + right. by apply bool_decide_eq_false.
    + left. apply lookup_delete_eq.
Qed.

Lemma serve_keeps_registered_open_witness :
  healthy (serve demoServer (Position demoEnv demoPost)) ∧
  healthy (serve demoServer
             (WebSocket (Some 3%positive) [Message "ping"; ReadError])).
Proof.
  assert (healthy demoServer) as H.
  { intros c _. apply not_elem_of_empty. }
  split.
  - apply (serve_keeps_registered_open demoServer
             (Position demoEnv demoPost) H). exact I.
  - apply (serve_keeps_registered_open demoServer
             (WebSocket (Some 3%positive) [Message "ping"; ReadError]) H).
    apply not_elem_of_empty.
Defined.

(** ** What the ingress handler rejects *)

Lemma badMember_spelled kv :
  badMember kv
  ↔ ∃ f, fieldByName kv.1 = Some f ∧
         (wrongKind kv.2 ∨
          ∃ n, kv.2 = VNumber n ∧
               match f with
               | FTimestamp => ParseInt n = None
               | _ => float64Of n = None
               end).
Proof.
  unfold badMember. destruct (fieldByName kv.1) as [f|].
  - destruct kv.2 as [| |n| | |]; simpl.
    + split; [done|]. by intros (? & _ & [[]|(? & ? & _)]).
    + split; [|done]. intros _. exists f. split; [done|]. by left.
    + split.
      * intros Hs. exists f. split; [done|]. right. exists n.
        split; [done|]. unfold storeNumber in Hs.
        destruct f; first [by destruct (float64Of n)|by destruct (ParseInt n)].
      * intros (g & [= <-] & [[]|(m & [= <-] & Hm)]). unfold storeNumber.
        destruct f; by rewrite Hm.
    + split; [|done]. intros _. exists f. split; [done|]. by left.
    + split; [|done]. intros _. exists f. split; [done|]. by left.
    + split; [|done]. intros _. exists f. split; [done|]. by left.
  - split; [done|]. by intros (? & ? & _).
Qed.

(** X6. A POST whose body is an object is answered with 400 exactly when
    one of its members names a field of the position and holds something
    that is neither [null] nor a number the field can take: a value of
    another kind, under [timestamp] a number that is no [int64], under
    [latitude] or [longitude] a number that is no [float64]. Members under
    other keys never matter. A rejected request changes nothing. *)
Theorem handlePosition_rejects_bad_members env r st members :
  Method r = MethodPost → Body r = Some (VObject members) →
  let bad (kv : string * Value) :=
    ∃ f, fieldByName kv.1 = Some f ∧
         (wrongKind kv.2 ∨
          ∃ n, kv.2 = VNumber n ∧
               match f with
               | FTimestamp => ParseInt n = None
               | _ => float64Of n = None
               end) in
  (StatusCode (handlePosition env r st).2 = 400 ↔ Exists bad members) ∧
  (Exists bad members →
     handlePosition env r st = (st, httpError "Invalid JSON" 400)).
Proof.
  intros Hm Hb bad.
  assert (Exists bad members ↔ Exists badMember members) as Hbad.
  { rewrite !Exists_exists. split; intros (kv & Hin & Hkv); exists kv;
      (split; [done|]); by apply badMember_spelled. }
  rewrite Hbad.
  pose proof (Decode_object_None members zeroPosition) as Hdec.
  rewrite <- Hb in Hdec.
  assert (Exists badMember members →
          handlePosition env r st = (st, httpError "Invalid JSON" 400)) as H.
  { intros Hex. apply handlePosition_invalid; [done|]. by apply Hdec. }
  split; [|done]. split; [|by intros ->%H].
  destruct (Decode (Body r) zeroPosition) as [decoded|] eqn:Hd;
    [|intros _; by apply Hdec].
  destruct (dbDown env) eqn:Hdb.
  - by rewrite (handlePosition_store_down env r st decoded).
  - by rewrite (handlePosition_accepted env r st decoded).
Qed.

Lemma handlePosition_rejects_bad_members_witness :
  StatusCode (handlePosition demoEnv stringLatitudePost demoServer).2 = 400 ∧
  handlePosition demoEnv stringLatitudePost demoServer
  = (demoServer, httpError "Invalid JSON" 400).
Proof.
  destruct (handlePosition_rejects_bad_members demoEnv stringLatitudePost
              demoServer
              [("latitude", VString "north");
               ("longitude", VNumber {| ParseFloat := Some 13.405%float;
                                        ParseInt := None |})]
              eq_refl eq_refl) as [Hiff Hbad].
  assert (Exists
            (λ kv : string * Value,
               ∃ f, fieldByName kv.1 = Some f ∧
                    (wrongKind kv.2 ∨
                     ∃ n, kv.2 = VNumber n ∧
                          match f with
                          | FTimestamp => ParseInt n = None
                          | _ => float64Of n = None
                          end))
            [("latitude", VString "north");
             ("longitude", VNumber {| ParseFloat := Some 13.405%float;
                                      ParseInt := None |})]) as Hex.
  { apply Exists_cons_hd. exists FLatitude. split; [reflexivity|].
    left. exact I. }
  split; [by apply Hiff | by apply Hbad].
Defined.

(** A key is compared the way [encoding/json] folds it: the long s stands
    for an s, and a string under such a key is rejected. *)
Example long_s_names_the_timestamp :
  fieldByName longSKey = Some FTimestamp ∧
  handlePosition demoEnv longSPost demoServer
  = (demoServer, httpError "Invalid JSON" 400).
Proof. split; reflexivity. Qed.

(** X7. The timestamp of the body is checked although it is thrown away:
    a POST whose body holds, under a key that names the timestamp, anything
    but [null] or an integer in the range of [int64] is answered with 400
    and changes nothing, whatever its latitude and longitude. *)
Theorem handlePosition_checks_client_timestamp env r st members key v :
  Method r = MethodPost → Body r = Some (VObject members) →
  (key, v) ∈ members → fieldByName key = Some FTimestamp →
  v ≠ VNull → (∀ n, v = VNumber n → ParseInt n = None) →
  handlePosition env r st = (st, httpError "Invalid JSON" 400).
Proof.
  intros Hm Hb Hin Hkey Hnull Hint. apply handlePosition_invalid; [done|].
  rewrite Hb. apply Decode_object_None, Exists_exists.
  exists (key, v). split; [done|]. unfold badMember. simpl. rewrite Hkey.
  destruct v as [| |n| | |]; try done. simpl. by rewrite (Hint n).
Qed.

Lemma handlePosition_checks_client_timestamp_witness :
  handlePosition demoEnv fractionalTimestampPost demoServer
  = (demoServer, httpError "Invalid JSON" 400).
Proof.
  eapply (handlePosition_checks_client_timestamp demoEnv
            fractionalTimestampPost demoServer _ "timestamp"
            (VNumber {| ParseFloat := Some 1.5%float; ParseInt := None |}));
    try reflexivity.
  - do 2 apply list_elem_of_further. apply list_elem_of_here.
  - discriminate.
  - intros n [= <-]. reflexivity.
Defined.

(** X8. A call of [handlePosition] that is not answered with 200 stores
    nothing and reaches no connection: the table, the registry, the closed
    transports and what every connection was sent are as before. *)
Theorem handlePosition_failure_no_effect env r st :
  StatusCode (handlePosition env r st).2 ≠ 200 →
  let st' := (handlePosition env r st).1 in
  positions st' = positions st ∧ connections st' = connections st ∧
  closed st' = closed st ∧ (∀ c, delivered st' c = delivered st c).
Proof.
  unfold handlePosition. case_decide; [done|].
  destruct (Decode (Body r) zeroPosition) as [decoded|]; [|done].
  unfold savePosition. destruct (dbDown env); simpl; done.
Qed.

Lemma handlePosition_failure_no_effect_witness :
  let st' := (handlePosition downEnv demoPost demoServer).1 in
  positions st' = positions demoServer ∧
  connections st' = connections demoServer ∧
  closed st' = closed demoServer ∧
  (∀ c, delivered st' c = delivered demoServer c).
Proof.
  apply (handlePosition_failure_no_effect downEnv demoPost demoServer).
  simpl. discriminate.
Defined.

(** ** The handlers that only read *)

Lemma scanRows_untouched rows acc st : untouched st (scanRows rows acc st).1.
Proof.
  revert acc st. induction rows as [|r rows IH]; intros acc st; [done|].
  simpl. destruct (Scan r); [apply IH|].
  destruct (IH acc (logPrintf ScanRowFailed st)) as (H1 & H2 & H3 & H4).
  unfold untouched. rewrite H1, H2, H3. split_and!; [done..|].
  intros c. by rewrite H4.
Qed.

(** X9. The handlers of /api/history, /api/last-position and /api/config
    change nothing but the log, whatever the request and whether or not
    the store answers: the registry, the closed transports, the table and
    what every connection was sent are as before. *)
Theorem read_handlers_change_nothing env r st :
  untouched st (handleHistory env r st).1 ∧
  untouched st (handleLastPosition env r st).1 ∧
  untouched st (handleConfig env r st).1.
Proof.
  split_and!.
  - unfold handleHistory. case_decide; [done|]. destruct (dbDown env); [done|].
    pose proof (scanRows_untouched (orderByCreatedAt false (positions st))
                  [] st) as Hu.
    by destruct (scanRows _ _ _).
  - unfold handleLastPosition. case_decide; [done|].
    destruct (dbDown env); [done|].
    destruct (take 1 _) as [|row ?]; [done|]. by destruct (Scan row).
  - done.
Qed.

(** ** The table after a run of POSTs *)

Lemma finite_sqliteReal f : finite (sqliteReal f) = finite f.
Proof.
  unfold sqliteReal, finite. destruct (classify f) eqn:Hc; rewrite ?Hc; done.
Qed.

Lemma finitePosition_readBack p : finitePosition (readBack p) = finitePosition p.
Proof. unfold finitePosition. simpl. by rewrite !finite_sqliteReal. Qed.

Lemma decodeMember_finite acc kv :
  finitePosition acc.1 = true → finitePosition (decodeMember acc kv).1 = true.
Proof.
  intros [Hlat Hlng]%andb_true_iff. unfold decodeMember.
  destruct (fieldByName kv.1) as [f|]; [|by apply andb_true_iff].
  destruct kv.2 as [| |n| | |]; try (by apply andb_true_iff).
  destruct (storeNumber f n acc.1) as [p'|] eqn:Hs;
    [|by apply andb_true_iff].
  simpl. unfold storeNumber, float64Of in Hs.
  destruct f, (ParseFloat n) as [x|], (ParseInt n); cbn in Hs; try done;
    try destruct (finite x) eqn:Hx; try done; injection Hs as <-;
    by apply andb_true_iff.
Qed.

(** What a body decodes to holds no infinity and no NaN. *)
Lemma Decode_finite body d :
  Decode body zeroPosition = Some d → finitePosition d = true.
Proof.
  destruct body as [[| | | | |members]|]; try done.
  - by intros [= <-].
  - unfold Decode.
    assert (∀ acc, finitePosition acc.1 = true →
                   finitePosition (foldl decodeMember acc members).1 = true)
      as H.
    { induction members as [|kv members IH]; intros acc Hacc; [done|].
      simpl. by apply IH, decodeMember_finite. }
    specialize (H (zeroPosition, false) eq_refl).
    destruct (foldl decodeMember (zeroPosition, false) members)
      as [p' failed]. destruct failed; [done|]. by intros [= <-].
Qed.

Lemma accepted_finite env r p :
  accepted env r = Some p → finitePosition p = true.
Proof.
  unfold accepted. case_decide; [|done]. destruct (dbDown env); [done|].
  destruct (Decode (Body r) zeroPosition) as [d|] eqn:Hd; [|done].
  intros [= <-]. rewrite finitePosition_readBack.
  by apply Decode_finite in Hd.
Qed.

Lemma encodable_marshalPosition p :
  encodable (marshalPosition p) = finitePosition p.
Proof.
  unfold finitePosition. simpl. by rewrite !andb_true_r.
Qed.

Lemma encodable_marshalPositions ps :
  encodable (marshalPositions ps) = forallb finitePosition ps.
Proof.
  destruct ps as [|p ps]; [done|]. unfold marshalPositions.
  generalize (p :: ps). clear. intros ps. simpl.
  induction ps as [|p ps IH]; [done|]. csimpl.
  rewrite IH. unfold finitePosition. by rewrite andb_true_r.
Qed.

Lemma accepted_iff_200 env r s :
  is_Some (accepted env r) ↔ StatusCode (handlePosition env r s).2 = 200.
Proof.
  unfold accepted. destruct (decide (Method r = MethodPost)) as [Hm|Hm].
  - destruct (Decode (Body r) zeroPosition) as [decoded|] eqn:Hd.
    + destruct (dbDown env) eqn:Hdb.
      * rewrite (handlePosition_store_down env r s decoded) by done.
        simpl. split; [by intros []|done].
      * rewrite (handlePosition_accepted env r s decoded) by done.
        simpl. split; [done|]. intros _. by eexists.
    + rewrite handlePosition_invalid by done.
      destruct (dbDown env); simpl; (split; [by intros []|done]).
  - rewrite handlePosition_wrong_method by done. simpl.
    split; [by intros []|done].
Qed.

Lemma stored_handlePosition env r st :
  stored (handlePosition env r st).1
  = stored st ++ option_list (accepted env r).
Proof.
  unfold accepted. destruct (decide (Method r = MethodPost)) as [Hm|Hm].
  - destruct (Decode (Body r) zeroPosition) as [decoded|] eqn:Hd.
    + destruct (dbDown env) eqn:Hdb; simpl.
      * rewrite (handlePosition_store_down env r st decoded) by done.
        by rewrite (right_id_L [] (++)).
      * unfold stored.
        rewrite (handlePosition_positions env r st decoded) by done.
        by rewrite omap_app.
    + rewrite handlePosition_invalid by done.
      destruct (dbDown env); simpl; by rewrite (right_id_L [] (++)).
  - rewrite handlePosition_wrong_method by done. simpl.
    by rewrite (right_id_L [] (++)).
Qed.

Lemma handlePosition_clock env r st t :
  t ≤ CURRENT_TIMESTAMP env →
  chronological (positions st) →
  Forall (λ x, created_at x ≤ t) (positions st) →
  chronological (positions (handlePosition env r st).1) ∧
  Forall (λ x, created_at x ≤ CURRENT_TIMESTAMP env)
    (positions (handlePosition env r st).1).
Proof.
  intros Ht Hc Hall.
  assert (Forall (λ x, created_at x ≤ CURRENT_TIMESTAMP env) (positions st))
    as Hall'.
  { eapply Forall_impl; [exact Hall|]. simpl. lia. }
  split; [by apply handlePosition_chronological|].
  destruct (handlePosition_table env r st) as [->|(Hdb & p & ->)]; [done|].
  unfold savePosition. rewrite Hdb. simpl. apply Forall_app.
  split; [done|]. by repeat constructor.
Qed.

(** What /api/history answers over a table that [savePosition] wrote
    while the clock did not run backwards. *)
Lemma handleHistory_response env r st :
  Method r = MethodGet → dbDown env = false →
  chronological (positions st) → scannable (positions st) →
  handleHistory env r st = (st, writeJSON (marshalPositions (stored st))).
Proof.
  intros Hm Hdb Hc Hs. unfold handleHistory.
  rewrite decide_False by (by intros []). rewrite Hdb.
  rewrite orderByCreatedAt_chronological by done.
  by rewrite scanRows_scannable.
Qed.

(** X10. After any run of calls of [handlePosition], the table holds what
    it held before followed by the positions of the calls that were
    answered with 200, in the order of the calls, each with the time of its
    call and as it reads back from its row. While SQLite's clock does not
    run backwards, /api/history answers 200 with exactly these ([null] when
    there are none), provided the positions the table held before are
    numbers; an infinity or a NaN among them leaves the body empty. *)
Theorem history_after_posts posts st t env r :
  scannable (positions st) → chronological (positions st) →
  Forall (λ x, created_at x ≤ t) (positions st) →
  clockOrdered t posts →
  Method r = MethodGet → dbDown env = false →
  let all := stored st ++ omap (λ post, accepted post.1 post.2) posts in
  (∀ env' r' s,
     is_Some (accepted env' r')
     ↔ StatusCode (handlePosition env' r' s).2 = 200) ∧
  stored (servePosts posts st) = all ∧
  (handleHistory env r (servePosts posts st)).2
  = {| StatusCode := 200; ContentType := "application/json";
       Written := if forallb finitePosition (stored st)
                  then Json (marshalPositions all) else Empty |}.
Proof.
  intros Hs Hc Hall Hclock Hm Hdb all.
  split; [apply accepted_iff_200|].
  assert (stored (servePosts posts st) = all ∧
          scannable (positions (servePosts posts st)) ∧
          chronological (positions (servePosts posts st))) as (Hst & Hs' & Hc').
  { unfold all. clear Hm Hdb all. revert st t Hs Hc Hall Hclock.
    induction posts as [|[env' r'] posts IH]; intros st t Hs Hc Hall Hclock.
    - simpl. by rewrite (right_id_L [] (++)).
    - destruct Hclock as [Ht Hclock]. simpl in Ht, Hclock.
      destruct (handlePosition_clock env' r' st t Ht Hc Hall) as [Hc1 Hall1].
      pose proof (handlePosition_scannable env' r' st Hs) as Hs1.
      destruct (IH _ _ Hs1 Hc1 Hall1 Hclock) as (Hst & Hs2 & Hc2).
      unfold servePosts in *. simpl. split_and!; [|done..].
      rewrite Hst, stored_handlePosition, <- (assoc_L (++)). f_equal.
      by destruct (accepted env' r'). }
  split; [done|]. rewrite handleHistory_response by done. simpl.
  rewrite Hst. unfold writeJSON. f_equal.
  rewrite encodable_marshalPositions. unfold all. rewrite forallb_app.
  assert (forallb finitePosition
            (omap (λ post : Env * Request, accepted post.1 post.2) posts)
          = true) as ->.
  { apply forallb_forall.
    intros p [post [_ Hp]]%list_elem_of_In%list_elem_of_omap.
    by apply accepted_finite in Hp. }
  by rewrite andb_true_r.
Qed.

Lemma history_after_posts_witness :
  let posts := [(demoEnv, postLatitude 48.137); (downEnv, demoPost);
                (demoEnv, stringLatitudePost); (demoEnv, negativeZeroPost);
                (demoEnv, demoPost)] in
  let all := [{| Latitude := 48.137; Longitude := 0;
                 Timestamp := 1700000000 |};
              {| Latitude := 0; Longitude := 13.405;
                 Timestamp := 1700000000 |};
              {| Latitude := 52.52; Longitude := 13.405;
                 Timestamp := 1700000000 |}] in
  (∀ env' r' s,
     is_Some (accepted env' r')
     ↔ StatusCode (handlePosition env' r' s).2 = 200) ∧
  stored (servePosts posts emptyServer) = all ∧
  (handleHistory demoEnv getRequest (servePosts posts emptyServer)).2
  = {| StatusCode := 200; ContentType := "application/json";
       Written := Json (marshalPositions all) |}.
Proof.
  intros posts all.
  apply (history_after_posts posts emptyServer 0 demoEnv getRequest).
  - constructor.
  - constructor.
  - constructor.
  - simpl. lia.
  - reflexivity.
  - reflexivity.
Defined.

(** ** Reading back what was stored *)

(** X11. A position that [handlePosition] accepts in a second later than
    that of every stored row is what /api/last-position answers with
    afterwards and the last element of the array of /api/history, with the
    latitude and longitude of the body (a negative zero as 0) and the time
    of the call. The array is there when the positions the table held
    before are numbers; otherwise the body of /api/history is empty. *)
Theorem accepted_position_read_back env env' r get st decoded :
  Method r = MethodPost → Decode (Body r) zeroPosition = Some decoded →
  dbDown env = false →
  Method get = MethodGet → dbDown env' = false →
  chronological (positions st) → scannable (positions st) →
  Forall (λ x, created_at x < CURRENT_TIMESTAMP env) (positions st) →
  let st' := (handlePosition env r st).1 in
  let p := {| Latitude := sqliteReal (Latitude decoded);
              Longitude := sqliteReal (Longitude decoded);
              Timestamp := Now env |} in
  handleLastPosition env' get st'
  = (st', {| StatusCode := 200; ContentType := "application/json";
             Written := Json (marshalPosition p) |}) ∧
  handleHistory env' get st'
  = (st', {| StatusCode := 200; ContentType := "application/json";
             Written :=
               if forallb finitePosition (stored st)
               then Json (JArray (marshalPosition <$> (stored st ++ [p])))
               else Empty |}).
Proof.
  intros Hm Hd Hdb Hget Hdb' Hc Hs Hnew st' p.
  pose proof (handlePosition_positions env r st decoded Hm Hd Hdb) as Hp.
  fold st' in Hp. set (row := {| id := nextId (positions st) |}) in Hp.
  assert (Forall (λ x, created_at x ≤ CURRENT_TIMESTAMP env) (positions st))
    as Hle.
  { eapply Forall_impl; [exact Hnew|]. simpl. lia. }
  assert (finitePosition p = true) as Hfin.
  { change p with (readBack (withTimestamp (Now env) decoded)).
    rewrite finitePosition_readBack. by apply Decode_finite in Hd. }
  split.
  - rewrite (handleLastPosition_fresh env' get st' (positions st) row p)
      by done.
    unfold writeJSON. by rewrite encodable_marshalPosition, Hfin.
  - rewrite handleHistory_response; try done.
    + unfold stored at 1. rewrite Hp, omap_app. fold (stored st).
      change (omap Scan [row]) with [p]. unfold writeJSON.
      rewrite encodable_marshalPositions, forallb_app. simpl.
      rewrite Hfin, !andb_true_r. unfold marshalPositions.
      by destruct (stored st).
    + by apply handlePosition_chronological.
    + by apply handlePosition_scannable.
Qed.

Lemma accepted_position_read_back_witness :
  let st' := (handlePosition laterEnv negativeZeroPost oneRowServer).1 in
  let p := {| Latitude := 0; Longitude := 13.405;
              Timestamp := 1700000060 |} in
  handleLastPosition demoEnv getRequest st'
  = (st', {| StatusCode := 200; ContentType := "application/json";
             Written := Json (marshalPosition p) |}) ∧
  handleHistory demoEnv getRequest st'
  = (st', {| StatusCode := 200; ContentType := "application/json";
             Written :=
               Json (JArray (marshalPosition
                               <$> (stored oneRowServer ++ [p]))) |}).
Proof.
  apply (accepted_position_read_back laterEnv demoEnv negativeZeroPost
           getRequest oneRowServer
           {| Latitude := (-0)%float; Longitude := 13.405;
              Timestamp := 0 |}); try reflexivity.
  - repeat constructor.
  - repeat constructor. by eexists.
  - repeat constructor.
Defined.

(** The first row of the descending order is the first row of the table
    among those of the latest second. *)
Lemma orderByCreatedAt_desc_first rows :
  rows ≠ [] →
  ∃ older row rest sorted,
    rows = older ++ row :: rest ∧
    orderByCreatedAt true rows = row :: sorted ∧
    Forall (λ x, created_at x < created_at row) older ∧
    Forall (λ x, created_at x ≤ created_at row) rest.
Proof.
  induction rows as [|a rows IH]; intros Hne; [done|].
  destruct rows as [|b rows].
  - exists [], a, [], []. by repeat split.
  - destruct IH as (older & row & rest & sorted & Hrows & Hsort & Ho & Hr);
      [done|].
    unfold orderByCreatedAt in *. cbn [foldr] in *. rewrite Hsort.
    cbn [place]. unfold before.
    destruct (Z.leb_spec (created_at row) (created_at a)) as [Hle|Hlt].
    + exists [], a, (b :: rows), (row :: sorted).
      split_and!; [done..|constructor|]. rewrite Hrows.
      apply Forall_app. split.
      * eapply Forall_impl; [exact Ho|]. simpl. lia.
      * constructor; [done|]. eapply Forall_impl; [exact Hr|]. simpl. lia.
    + exists (a :: older), row, rest, (place true a sorted).
      split_and!; [by rewrite Hrows|done| |done]. by constructor.
Qed.

(** X12. Over a table that is not empty and whose rows scan,
    /api/last-position answers 200 and never with [null]: with the position
    of the first row, in the order of insertion, among the rows with the
    latest [created_at] second, or with an empty body when that position
    holds an infinity or a NaN. It changes nothing. *)
Theorem handleLastPosition_first_of_latest_second env r st :
  Method r = MethodGet → dbDown env = false →
  scannable (positions st) → positions st ≠ [] →
  ∃ older row rest p,
    positions st = older ++ row :: rest ∧
    Forall (λ x, created_at x < created_at row) older ∧
    Forall (λ x, created_at x ≤ created_at row) rest ∧
    Scan row = Some p ∧
    handleLastPosition env r st
    = (st, {| StatusCode := 200; ContentType := "application/json";
              Written := if finitePosition p
                         then Json (marshalPosition p) else Empty |}).
Proof.
  intros Hm Hdb Hs Hne.
  destruct (orderByCreatedAt_desc_first (positions st) Hne)
    as (older & row & rest & sorted & Hrows & Hsort & Ho & Hr).
  assert (is_Some (Scan row)) as [p Hp].
  { eapply Forall_forall in Hs; [exact Hs|]. rewrite Hrows.
    apply elem_of_app. right. left. }
  exists older, row, rest, p. split_and!; try done.
  unfold handleLastPosition. rewrite decide_False by (by intros []).
  rewrite Hdb, Hsort. simpl. rewrite Hp. unfold writeJSON.
  by rewrite encodable_marshalPosition.
Qed.

Lemma handleLastPosition_first_of_latest_second_witness :
  ∃ older row rest p,
    positions sameSecondServer = older ++ row :: rest ∧
    Forall (λ x, created_at x < created_at row) older ∧
    Forall (λ x, created_at x ≤ created_at row) rest ∧
    Scan row = Some p ∧
    handleLastPosition demoEnv getRequest sameSecondServer
    = (sameSecondServer,
       {| StatusCode := 200; ContentType := "application/json";
          Written := if finitePosition p
                     then Json (marshalPosition p) else Empty |}).
Proof.
  apply (handleLastPosition_first_of_latest_second demoEnv getRequest
           sameSecondServer).
  - reflexivity.
  - reflexivity.
  - repeat constructor; by eexists.
  - discriminate.
Defined.

(** A row whose latitude is the text [inf] scans, and the encoder refuses
    the infinity: both handlers answer 200 with an empty body. *)
Example infinity_leaves_the_body_empty :
  stored infiniteRowServer
  = [{| Latitude := infinity; Longitude := 0; Timestamp := 1700000000 |}] ∧
  handleLastPosition demoEnv getRequest infiniteRowServer
  = (infiniteRowServer,
     {| StatusCode := 200; ContentType := "application/json";
        Written := Empty |}) ∧
  handleHistory demoEnv getRequest infiniteRowServer
  = (infiniteRowServer,
     {| StatusCode := 200; ContentType := "application/json";
        Written := Empty |}).
Proof. split_and!; reflexivity. Qed.

(** ** A viewer and the next broadcast *)

(** X13. A viewer that connected and whose every read so far gave a
    message is reached by the next broadcast; one whose read has failed is
    not, and is not in the registry. Either way the broadcast treats every
    other connection as if the viewer had never come. *)
Theorem viewer_and_next_broadcast env position c reads st :
  c ∉ closed st → c ∉ peerGone env →
  let st1 := (handleWebSocket (Some c) reads st).1 in
  let st2 := broadcastPosition env position st1 in
  (Forall isMessage reads →
     delivered st2 c = position :: delivered st c ∧ registered st2 c) ∧
  (¬ Forall isMessage reads →
     delivered st2 c = delivered st c ∧ ¬ registered st2 c) ∧
  (∀ c', c' ≠ c → view st2 c' = fate env position c' (view st c')).
Proof.
  intros Hc Hg st1 st2.
  assert (c ∉ closed (register c (logPrintf (ClientConnected c) st)))
    as Hc' by done.
  split_and!.
  - intros Hall.
    assert (view st1 c = (Some true, false, delivered st c)) as Hv1.
    { unfold st1, handleWebSocket. rewrite readLoop_messages by done.
      unfold view, delivered; simpl. rewrite lookup_insert_eq.
      by rewrite bool_decide_eq_false_2. }
    assert (view st2 c = (Some true, false, position :: delivered st c))
      as Hv2.
    { unfold st2. rewrite view_broadcastPosition, Hv1. unfold fate. simpl.
      by rewrite decide_True. }
    apply view_inv in Hv2 as (Hm & _ & Hd). split; [done|].
    apply elem_of_dom. by eexists.
  - intros Hall. apply (readLoop_left_iff c reads _ Hc') in Hall.
    assert (view st1 c = (None, true, delivered st c)) as Hv1.
    { unfold st1, handleWebSocket.
      destruct (readLoop_state c reads
                  (register c (logPrintf (ClientConnected c) st)))
        as [Hl|Hl]; rewrite Hl in Hall |- *; [done|].
      unfold view, delivered; simpl. rewrite lookup_delete_eq.
      rewrite bool_decide_eq_true_2; [done|].
      by apply elem_of_union_l, elem_of_singleton_2. }
    assert (view st2 c = (None, true, delivered st c)) as Hv2.
    { unfold st2. rewrite view_broadcastPosition, Hv1. done. }
    apply view_inv in Hv2 as (Hm & _ & Hd). split; [done|].
    by apply not_elem_of_dom.
  - intros c' Hne. unfold st2. rewrite view_broadcastPosition. f_equal.
    apply view_handleWebSocket_other. congruence.
Qed.

Lemma viewer_and_next_broadcast_witness :
  (delivered
     (broadcastPosition demoEnv berlin
        (handleWebSocket (Some 3%positive) [Message "ping"] demoServer).1)
     3%positive = [berlin]) ∧
  (delivered
     (broadcastPosition demoEnv berlin
        (handleWebSocket (Some 3%positive) [Message "ping"; ReadError]
           demoServer).1)
     3%positive = []).
Proof.
  split.
  - apply (viewer_and_next_broadcast demoEnv berlin 3%positive
             [Message "ping"] demoServer).
    + apply not_elem_of_empty.
    + simpl. intros H. apply elem_of_singleton in H. discriminate.
    + repeat constructor.
  - apply (viewer_and_next_broadcast demoEnv berlin 3%positive
             [Message "ping"; ReadError] demoServer).
    + apply not_elem_of_empty.
    + simpl. intros H. apply elem_of_singleton in H. discriminate.
    + intros H. apply Forall_cons in H as [_ H].
      apply Forall_cons in H as [H _]. exact H.
Defined.

(** ** The lock at work *)

Section LockAtWork.
Import Concurrent.
Local Open Scope nat_scope.

Lemma count_positive f gs :
  0 < count f gs → ∃ i g, gs !! i = Some g ∧ f g = true.
Proof.
  induction gs as [|g gs IH]; simpl; [lia|]. intros Hpos.
  destruct (f g) eqn:Hf.
  - by exists 0, g.
  - destruct IH as (i & h & Hi & Hh); [lia|]. by exists (S i), h.
Qed.

Lemma step_enabled i rd s g o :
  goroutines s !! i = Some g →
  advance g rd (server s) (connMutex s) = Some o →
  is_Some (step i rd s).
Proof.
  intros Hg Ha. unfold step. rewrite Hg. simpl. rewrite Ha.
  destruct o as [[st m] g']. by eexists.
Qed.

(** X14. [connMutex.Lock()] excludes everybody else: in every state the
    handlers reach, a goroutine that is between [Lock] and [Unlock], to
    register or to delete a connection, is the only one that holds the
    lock in either mode; nobody is inside a loop over [connections]. *)
Theorem writer_is_alone st gs schedule s i g :
  Forall outside gs →
  run schedule (initial st gs) = Some s →
  goroutines s !! i = Some g → exclusive g = true →
  connMutex s = {| readers := 0; writer := true |} ∧
  (∀ j h, j ≠ i → goroutines s !! j = Some h →
          iterating h = false ∧ exclusive h = false).
Proof.
  intros Hgs Hrun Hi Hg.
  pose proof (lockInvariant_run _ _ _ (lockInvariant_initial st gs Hgs) Hrun)
    as (Hr & Hx & Hw).
  pose proof (count_insert exclusive _ i _ Returned Hi) as Hcx.
  rewrite Hg in Hcx. simpl in Hcx.
  destruct (connMutex s) as [n w] eqn:Hm. simpl in *.
  destruct w; [|lia]. specialize (Hw eq_refl). split.
  - f_equal. lia.
  - intros j h Hne Hj. split.
    + by eapply count_zero.
    + eapply (count_zero exclusive (<[i:=Returned]> (goroutines s)) j);
        [lia|]. by rewrite list_lookup_insert_ne.
Qed.

Lemma writer_is_alone_witness :
  ∃ s,
    run busySchedule (initial demoServer busyGoroutines) = Some s ∧
    connMutex s = {| readers := 0; writer := true |}.
Proof.
  eexists. split; [vm_compute; reflexivity|].
  eapply proj1.
  apply (writer_is_alone demoServer busyGoroutines busySchedule _ 2
           (WsRegistering 3%positive)).
  - repeat constructor.
  - vm_compute. reflexivity.
  - reflexivity.
  - reflexivity.
Defined.

(** X15. The lock never brings the handlers to a standstill: in every
    state they reach, as long as one of them has not returned, one of them
    can take its next step; and that step is a [connMutex.RLock()] only
    when no handler is at a [connMutex.Lock()], so that a writer that has
    to go first does not change this. *)
Theorem handlers_never_deadlock st gs schedule s rd :
  Forall outside gs →
  run schedule (initial st gs) = Some s →
  ¬ allReturned s →
  ∃ i g,
    goroutines s !! i = Some g ∧ is_Some (step i rd s) ∧
    (∀ env p, g = Broadcast env p →
       ∀ j h, goroutines s !! j = Some h → wantsLock h = false).
Proof.
  intros Hgs Hrun Hbusy.
  pose proof (lockInvariant_run _ _ _ (lockInvariant_initial st gs Hgs) Hrun)
    as (Hr & Hx & Hw).
  destruct (connMutex s) as [n w] eqn:Hm. simpl in *. destruct w.
  - destruct (count_positive exclusive (goroutines s)) as (i & g & Hi & Hg);
      [lia|]. exists i, g. split_and!; [done| |by intros ?? ->].
    destruct g; try done; by eapply step_enabled.
  - destruct n as [|n].
    + destruct (count wantsLock (goroutines s)) as [|k] eqn:Hk.
      * apply not_Forall_Exists in Hbusy; [|apply _].
        apply Exists_exists in Hbusy as (g & Hin & Hg).
        apply list_elem_of_lookup in Hin as [i Hi].
        exists i, g. split_and!; [done| |].
        -- destruct g as [env p| env p [|c keys] |c|c|c|c|c|];
             try (by destruct Hg);
             try (eapply step_enabled; [done|]; simpl; rewrite Hm; done).
           destruct (decide (c ∈ closed (server s))) as [Hc|Hc];
             [|destruct rd]; (eapply step_enabled; [done|]); simpl;
             rewrite ?decide_True, ?decide_False by done; done.
        -- intros _ _ _ j h Hj. by eapply count_zero.
      * destruct (count_positive wantsLock (goroutines s))
          as (i & g & Hi & Hg); [lia|].
        exists i, g. split_and!; [done| |by intros ?? ->].
        destruct g; try done;
          (eapply step_enabled; [done|]; simpl; rewrite Hm; done).
    + destruct (count_positive iterating (goroutines s))
        as (i & g & Hi & Hg); [lia|].
      exists i, g. split_and!; [done| |by intros ?? ->].
      destruct g as [| env p [|c keys] | | | | | |]; try done;
        by eapply step_enabled.
Qed.

Lemma handlers_never_deadlock_witness :
  ∃ s i g,
    run busySchedule (initial demoServer busyGoroutines) = Some s ∧
    goroutines s !! i = Some g ∧ is_Some (step i ReadError s).
Proof.
  eexists.
  assert (run busySchedule (initial demoServer busyGoroutines) = Some _)
    as Hrun by (vm_compute; reflexivity).
  destruct (handlers_never_deadlock demoServer busyGoroutines busySchedule _
              ReadError (ltac:(repeat constructor)) Hrun)
    as (i & g & Hi & Hstep & _).
  - intros H. apply Forall_cons in H as [_ H].
    apply Forall_cons in H as [_ H]. apply Forall_cons in H as [H _].
    discriminate.
  - exists i, g. split_and!; [exact Hrun | exact Hi | exact Hstep].
Defined.

(** X16. No handler keeps the lock: in every state the handlers reach in
    which all of them have returned, [connMutex] is free. *)
Theorem lock_is_free_at_rest st gs schedule s :
  Forall outside gs →
  run schedule (initial st gs) = Some s →
  allReturned s →
  connMutex s = {| readers := 0; writer := false |}.
Proof.
  intros Hgs Hrun Hrest.
  pose proof (lockInvariant_run _ _ _ (lockInvariant_initial st gs Hgs) Hrun)
    as (Hr & Hx & _).
  rewrite count_outside in Hr, Hx;
    try (eapply Forall_impl; [exact Hrest|]; by intros []).
  destruct (connMutex s) as [n w]. simpl in *. subst n. by destruct w.
Qed.

Lemma lock_is_free_at_rest_witness :
  ∃ s,
    run (busySchedule ++ [(2, ReadError); (2, ReadError); (2, ReadError);
                          (2, ReadError)])
      (initial demoServer busyGoroutines) = Some s ∧
    connMutex s = {| readers := 0; writer := false |}.
Proof.
  eexists. split; [vm_compute; reflexivity|].
  apply (lock_is_free_at_rest demoServer busyGoroutines
           (busySchedule ++ [(2, ReadError); (2, ReadError); (2, ReadError);
                             (2, ReadError)])).
  - repeat constructor.
  - vm_compute. reflexivity.
  - repeat constructor.
Defined.
End LockAtWork.

(** ** A handler that runs alone *)

Section Alone.
Import Concurrent.
Local Open Scope nat_scope.

Lemma run_app schedule1 schedule2 s :
  run (schedule1 ++ schedule2) s = s' ← run schedule1 s; run schedule2 s'.
Proof.
  revert s. induction schedule1 as [|[i rd] schedule1 IH]; intros s; [done|].
  simpl. destruct (step i rd s) as [s1|]; [apply IH|done].
Qed.

Lemma run_ranging env p keys st n others rd :
  run (alone (replicate (S (length keys)) rd))
    {| server := st; connMutex := {| readers := S n; writer := false |};
       goroutines := Ranging env p keys :: others |}
  = Some {| server := range keys (visit env p) st;
            connMutex := {| readers := n; writer := false |};
            goroutines := Returned :: others |}.
Proof.
  revert st. induction keys as [|c keys IH]; intros st; [done|].
  cbn [length replicate alone fmap list_fmap run].
  unfold step at 1. simpl. apply IH.
Qed.

(** X17. A broadcast that no other handler interrupts does, step by step
    under the read lock, exactly what [broadcastPosition] does in one go:
    after the lock, one step for each key and the unlock, the server is in
    the state [broadcastPosition] gives, the lock is free again, and the
    other goroutines are where they were. *)
Theorem lone_broadcast_is_sequential env p st others rd :
  run (alone (replicate (length (elements (dom (connections st))) + 2) rd))
    (initial st (Broadcast env p :: others))
  = Some {| server := broadcastPosition env p st;
            connMutex := {| readers := 0; writer := false |};
            goroutines := Returned :: others |}.
Proof.
  rewrite Nat.add_comm. cbn [Nat.add replicate alone fmap list_fmap run].
  unfold step at 1. simpl.
  apply (run_ranging env p (elements (dom (connections st))) st 0 others rd).
Qed.

Lemma step_head g rd st m others st' m' g' :
  advance g rd st m = Some (st', m', g') →
  step 0 rd {| server := st; connMutex := m; goroutines := g :: others |}
  = Some {| server := st'; connMutex := m'; goroutines := g' :: others |}.
Proof. intros Ha. unfold step. simpl. by rewrite Ha. Qed.

Lemma run_reading c msgs st others rd :
  c ∉ closed st → Forall isMessage msgs →
  run (alone (msgs ++ [ReadError; rd; rd]))
    {| server := st; connMutex := {| readers := 0; writer := false |};
       goroutines := WsReading c :: others |}
  = Some {| server := deregister c (connClose c (logPrintf ReadFailed st));
            connMutex := {| readers := 0; writer := false |};
            goroutines := Returned :: others |}.
Proof.
  intros Hc Hall. induction Hall as [|m msgs Hm _ IH].
  - cbn [app alone fmap list_fmap run].
    erewrite step_head by (simpl; by rewrite decide_False).
    cbn [mbind option_bind]. erewrite step_head by done.
    cbn [mbind option_bind]. by erewrite step_head.
  - destruct m; [|done]. cbn [app alone fmap list_fmap run].
    erewrite step_head by (simpl; by rewrite decide_False).
    apply IH.
Qed.

(** X18. A viewer's handler that no other handler interrupts goes through
    its steps to the state [handleWebSocket] gives: for a new connection
    and reads that give messages until one fails, it registers under the
    lock, drops the messages, closes the transport at the failed read and
    deletes under the lock, and leaves the lock free. *)
Theorem lone_viewer_is_sequential c msgs rest st others rd :
  c ∉ closed st → Forall isMessage msgs →
  run (alone ([rd; rd] ++ msgs ++ [ReadError; rd; rd]))
    (initial st (WsUpgraded c :: others))
  = Some {| server := (handleWebSocket (Some c)
                         (msgs ++ ReadError :: rest) st).1;
            connMutex := {| readers := 0; writer := false |};
            goroutines := Returned :: others |}.
Proof.
  intros Hc Hall. unfold handleWebSocket.
  rewrite readLoop_error by done.
  unfold initial. cbn [app alone fmap list_fmap run].
  erewrite step_head by done. cbn [mbind option_bind].
  erewrite step_head by done. by apply run_reading.
Qed.

Lemma lone_viewer_is_sequential_witness :
  run (alone ([ReadError; ReadError] ++ [Message "ping"]
              ++ [ReadError; ReadError; ReadError]))
    (initial demoServer [WsUpgraded 3%positive])
  = Some {| server := (handleWebSocket (Some 3%positive)
                         ([Message "ping"] ++ ReadError :: []) demoServer).1;
            connMutex := {| readers := 0; writer := false |};
            goroutines := [Returned] |}.
Proof.
  apply (lone_viewer_is_sequential 3%positive [Message "ping"] []
           demoServer [] ReadError).
  - apply not_elem_of_empty.
  - repeat constructor.
Defined.

End Alone.

(** ** The variant without a store *)

(** X19. While the store answers, the variant with the table and the one
    without answer a request alike and do the same to every connection.
    The variant without the table never touches it and never answers with
    500. *)
Theorem variants_broadcast_alike env r st :
  (dbDown env = false →
     (handlePosition env r st).2 = (BroadcastOnly.handlePosition env r st).2 ∧
     (∀ c, view (handlePosition env r st).1 c
           = view (BroadcastOnly.handlePosition env r st).1 c)) ∧
  positions (BroadcastOnly.handlePosition env r st).1 = positions st ∧
  StatusCode (BroadcastOnly.handlePosition env r st).2 ≠ 500.
Proof.
  unfold handlePosition, BroadcastOnly.handlePosition.
  case_decide; [done|].
  destruct (Decode (Body r) zeroPosition) as [decoded|]; [|done].
  split_and!.
  - intros Hdb. unfold savePosition. rewrite Hdb. simpl. split; [done|].
    intros c. unfold logPrintf. rewrite !view_emit_other by done.
    by rewrite !view_broadcastPosition, view_emit_other.
  - simpl. apply broadcastPosition_positions.
  - done.
Qed.

Lemma variants_broadcast_alike_witness :
  (handlePosition demoEnv demoPost demoServer).2
  = (BroadcastOnly.handlePosition demoEnv demoPost demoServer).2 ∧
  (∀ c, view (handlePosition demoEnv demoPost demoServer).1 c
        = view (BroadcastOnly.handlePosition demoEnv demoPost demoServer).1 c).
Proof.
  apply (variants_broadcast_alike demoEnv demoPost demoServer). reflexivity.
Defined.

(** ** The variant that sends random positions *)

Lemma tickLoop_sent sent ticks s :
  Forall (λ t, Simulator.writeFails t = false) sent →
  ∃ s',
    Simulator.tickLoop (sent ++ ticks) s = Simulator.tickLoop ticks s' ∧
    Simulator.frames s' = rev (simulated <$> sent) ++ Simulator.frames s ∧
    Simulator.connClosed s' = Simulator.connClosed s ∧
    Simulator.tickerStopped s' = Simulator.tickerStopped s.
Proof.
  intros Hall. revert s. induction Hall as [|t sent Ht _ IH]; intros s.
  - by exists s.
  - simpl. rewrite Ht.
    destruct (IH (Simulator.logLine
                    (Simulator.SentLine (Latitude (simulated t))
                       (Longitude (simulated t)))
                    (Simulator.writeFrame (simulated t) s)))
      as (s' & Hrun & Hf & Hc & Hk).
    exists s'. split_and!; [done| |done..].
    rewrite Hf. simpl. by rewrite <- (assoc_L (++)).
Qed.

(** X20. The simulator writes one position for each tick, in the order of
    the ticks and each with the time of its tick, until a write fails.
    While no write has failed the handler has not returned and the
    connection and the ticker are as they were; at the first write that
    fails it returns with the connection closed and the ticker stopped,
    and the ticks after it send nothing. *)
Theorem simulator_sends_until_write_fails sent :
  Forall (λ t, Simulator.writeFails t = false) sent →
  (let out := Simulator.handleWebSocket true sent in
   out.2 = false ∧
   Simulator.frames out.1 = rev (simulated <$> sent) ∧
   Timestamp <$> Simulator.frames out.1 = rev (Simulator.tickNow <$> sent) ∧
   Simulator.connClosed out.1 = false ∧
   Simulator.tickerStopped out.1 = false) ∧
  (∀ failing rest,
     Simulator.writeFails failing = true →
     let out := Simulator.handleWebSocket true (sent ++ failing :: rest) in
     out.2 = true ∧
     Simulator.frames out.1 = rev (simulated <$> sent) ∧
     Simulator.connClosed out.1 = true ∧
     Simulator.tickerStopped out.1 = true).
Proof.
  intros Hall. split.
  - destruct (tickLoop_sent sent []
                (Simulator.logLine Simulator.ClientConnectedLine
                   Simulator.newSession) Hall)
      as (s' & Hrun & Hf & Hc & Hk).
    rewrite (right_id_L [] (++)) in Hrun.
    simpl in Hf, Hc, Hk. rewrite (right_id_L [] (++)) in Hf.
    unfold Simulator.handleWebSocket. rewrite Hrun. simpl.
    split_and!; [done|done| |done..].
    rewrite Hf. clear. induction sent as [|t sent IH]; [done|].
    csimpl. by rewrite fmap_app, IH.
  - intros failing rest Hfail.
    destruct (tickLoop_sent sent (failing :: rest)
                (Simulator.logLine Simulator.ClientConnectedLine
                   Simulator.newSession) Hall)
      as (s' & Hrun & Hf & Hc & Hk).
    simpl in Hf, Hc, Hk. rewrite (right_id_L [] (++)) in Hf.
    unfold Simulator.handleWebSocket. rewrite Hrun. simpl.
    rewrite Hfail. done.
Qed.

Lemma simulator_sends_until_write_fails_witness :
  let out := Simulator.handleWebSocket true demoTicks in
  out.2 = true ∧
  Simulator.frames out.1 = rev (simulated <$> take 2 demoTicks) ∧
  Simulator.connClosed out.1 = true ∧
  Simulator.tickerStopped out.1 = true.
Proof.
  eapply (simulator_sends_until_write_fails (take 2 demoTicks)).
  - repeat constructor.
  - reflexivity.
Defined.

(** ** What a viewer sends *)

(** X21. What a viewer sends changes nothing: for a new connection, the
    state after any number of messages is the state after none, and the
    state after a failed read is the same whatever messages came before it
    and whatever would have come after. *)
Theorem viewer_messages_are_ignored c msgs rest st :
  c ∉ closed st → Forall isMessage msgs →
  handleWebSocket (Some c) msgs st = handleWebSocket (Some c) [] st ∧
  handleWebSocket (Some c) (msgs ++ ReadError :: rest) st
  = handleWebSocket (Some c) [ReadError] st.
Proof.
  intros Hc Hall.
  assert (c ∉ closed (register c (logPrintf (ClientConnected c) st)))
    as Hc' by done.
  unfold handleWebSocket. split.
  - by rewrite readLoop_messages.
  - rewrite readLoop_error by done.
    by rewrite (readLoop_error c [] []).
Qed.

Lemma viewer_messages_are_ignored_witness :
  handleWebSocket (Some 3%positive) [Message "ping"; Message "pong"]
    demoServer
  = handleWebSocket (Some 3%positive) [] demoServer ∧
  handleWebSocket (Some 3%positive)
    ([Message "ping"; Message "pong"] ++ ReadError :: [Message "late"])
    demoServer
  = handleWebSocket (Some 3%positive) [ReadError] demoServer.
Proof.
  apply (viewer_messages_are_ignored 3%positive
           [Message "ping"; Message "pong"] [Message "late"] demoServer).
  - apply not_elem_of_empty.
  - repeat constructor.
Defined.

(** ** Rows that do not scan *)

Lemma scanRows_skips rows acc st :
  ∃ k,
    scanRows rows acc st
    = (Nat.iter k (logPrintf ScanRowFailed) st, acc ++ omap Scan rows) ∧
    (k + length (omap Scan rows) = length rows)%nat.
Proof.
  revert acc st. induction rows as [|r rows IH]; intros acc st.
  - exists O. simpl. by rewrite (right_id_L [] (++)).
  - simpl. destruct (Scan r) as [pos|] eqn:Hr.
    + destruct (IH (acc ++ [pos]) st) as (k & -> & Hk). exists k.
      rewrite <- (assoc_L (++)). split; [done|]. simpl.
      rewrite Nat.add_succ_r. f_equal. exact Hk.
    + destruct (IH acc (logPrintf ScanRowFailed st)) as (k & -> & Hk).
      exists (S k). split; [|simpl; f_equal; exact Hk]. f_equal.
      symmetry. apply Nat.iter_succ_r.
Qed.

(** X22. A row that does not scan never fails /api/history: over a table
    in ascending [created_at] order the answer is 200 with the positions
    of the rows that scan, in the order of the table (with an empty body
    when one of them holds an infinity or a NaN), and each row that does
    not scan costs one log line and nothing else. *)
Theorem history_skips_bad_rows env r st :
  Method r = MethodGet → dbDown env = false →
  chronological (positions st) →
  ∃ k,
    handleHistory env r st
    = (Nat.iter k (logPrintf ScanRowFailed) st,
       {| StatusCode := 200; ContentType := "application/json";
          Written := if forallb finitePosition (stored st)
                     then Json (marshalPositions (stored st)) else Empty |}) ∧
    (k + length (stored st) = length (positions st))%nat.
Proof.
  intros Hm Hdb Hc. unfold handleHistory.
  rewrite decide_False by (by intros []). rewrite Hdb.
  rewrite orderByCreatedAt_chronological by done.
  destruct (scanRows_skips (positions st) [] st) as (k & -> & Hk).
  exists k. split; [|done]. simpl. fold (stored st). unfold writeJSON.
  by rewrite encodable_marshalPositions.
Qed.

Lemma history_skips_bad_rows_witness :
  ∃ k,
    handleHistory demoEnv getRequest brokenRowServer
    = (Nat.iter k (logPrintf ScanRowFailed) brokenRowServer,
       {| StatusCode := 200; ContentType := "application/json";
          Written := Json (marshalPositions (stored brokenRowServer)) |}) ∧
    (k + length (stored brokenRowServer)
     = length (positions brokenRowServer))%nat.
Proof.
  apply (history_skips_bad_rows demoEnv getRequest brokenRowServer).
  - reflexivity.
  - reflexivity.
  - repeat constructor; simpl; lia.
Defined.
